(** * EnergyDrum: a shallow embedding of [AuroraPlugin.cpp]

    The plugin keeps a bounded pool of light sources, spawns one on every
    beat or onset, renders every panel from the pool and then ages the
    pool.  This file embeds the C++ functions [removeSource], [distance],
    [getRGB], [addSource], [renderPanel], [diffuseSources] and
    [getPluginFrame] and states their properties.

    Numbers are modelled as the code has them: [int] values as [Z] (faults
    are raised where the C++ arithmetic has no defined result and the
    value can grow without bound), [float] as IEEE-754 binary32 and
    [double] as binary64, both through the Standard Library's [SpecFloat]. *)

From Stdlib Require Import ZArith Lia Bool.
From Stdlib Require Import Floats.SpecFloat.
From Equations Require Import Equations.
From Equations.Prop Require Import Logic.
From stdpp Require Import base tactics option list numbers.

#[local] Open Scope Z_scope.

(** ** Faults and the error monad *)

(** What a call can run into: a read outside an array, an integer division
    by zero, a signed overflow of one of the unbounded counters. *)
Inductive fault := OutOfBounds | DivByZero | SignedOverflow.

Inductive result (A : Type) :=
| Ok (a : A)
| Fault (f : fault).
Arguments Ok {A} a.
Arguments Fault {A} f.

#[global] Instance result_ret : MRet result := @Ok.
#[global] Instance result_bind : MBind result := λ A B k m,
  match m with
  | Ok a => k a
  | Fault f => Fault f
  end.

Definition is_Ok {A} (m : result A) : Prop :=
  match m with Ok _ => True | Fault _ => False end.

(** [a[i]] for an [int] index [i]. *)
Definition index {A} (a : list A) (i : Z) : result A :=
  if 0 <=? i then
    match a !! Z.to_nat i with
    | Some v => Ok v
    | None => Fault OutOfBounds
    end
  else Fault OutOfBounds.

(** ** The [int] type *)

Definition INT_MIN : Z := -2147483648.
Definition INT_MAX : Z := 2147483647.

Definition int_range (z : Z) : bool := (INT_MIN <=? z) && (z <=? INT_MAX).

(** Signed addition; overflow has no defined result. *)
Definition int_add (a b : Z) : result Z :=
  if int_range (a + b) then Ok (a + b) else Fault SignedOverflow.

(** Signed division, truncating towards zero. *)
Definition int_div (a b : Z) : result Z :=
  if b =? 0 then Fault DivByZero
  else if int_range (a ÷ b) then Ok (a ÷ b) else Fault SignedOverflow.

(** ** Floating point *)

(** The value [m * 2^e] cut towards zero, for a finite number. *)
Definition SFtrunc (f : spec_float) : option Z :=
  match f with
  | S754_zero _ => Some 0
  | S754_finite s m e =>
      Some (cond_Zopp s
              (match e with
               | Z0 => Zpos m
               | Zpos p => Zpos m * 2 ^ Zpos p
               | Zneg p => Zpos m / 2 ^ Zpos p
               end))
  | _ => None
  end.

(** The conversion [(int)f].  C++ defines it only when the truncated value
    fits an [int]; elsewhere the model returns [INT_MIN], the "integer
    indefinite" of the x86 conversion instructions. *)
Definition to_int (f : spec_float) : Z :=
  match SFtrunc f with
  | Some z => if int_range z then z else INT_MIN
  | None => INT_MIN
  end.

(** [float]: binary32. *)
Module F32.
Definition prec : Z := 24.
Definition emax : Z := 128.
Definition of_int (z : Z) : spec_float := binary_normalize prec emax z 0 false.
Definition round (f : spec_float) : spec_float :=
  match f with
  | S754_finite s m e => binary_round prec emax s m e
  | _ => f
  end.
Definition add := SFadd prec emax.
Definition sub := SFsub prec emax.
Definition mul := SFmul prec emax.
Definition div := SFdiv prec emax.
Definition sqrt := SFsqrt prec emax.
Definition zero : spec_float := S754_zero false.
End F32.

(** [double]: binary64. *)
Module F64.
Definition prec : Z := 53.
Definition emax : Z := 1024.
Definition of_int (z : Z) : spec_float := binary_normalize prec emax z 0 false.
Definition round (f : spec_float) : spec_float :=
  match f with
  | S754_finite s m e => binary_round prec emax s m e
  | _ => f
  end.
Definition add := SFadd prec emax.
Definition sub := SFsub prec emax.
Definition mul := SFmul prec emax.
Definition div := SFdiv prec emax.
(** The decimal literal [p/q] for exactly representable [p] and [q]: the
    division rounds to the nearest double, as the compiler does. *)
Definition lit (p q : Z) : spec_float := div (of_int p) (of_int q).
End F64.

Definition float := spec_float.
Definition double := spec_float.

(** Implicit conversions between the two formats. *)
Definition to_double (f : float) : double := F64.round f.
Definition to_float (d : double) : float := F32.round d.

(** A [double] literal passed where a [float] is expected. *)
Definition flit (p q : Z) : float := to_float (F64.lit p q).

(** Comparisons; values of both formats are compared after the promotion to
    [double], which is exact. *)
Definition fcmp (a b : spec_float) : option comparison :=
  SFcompare (to_double a) (to_double b).
Definition feqb (a b : spec_float) : bool :=
  match fcmp a b with Some Eq => true | _ => false end.
Definition fltb (a b : spec_float) : bool :=
  match fcmp a b with Some Lt => true | _ => false end.
Definition fleb (a b : spec_float) : bool :=
  match fcmp a b with Some (Lt | Eq) => true | _ => false end.

(** ** Constants *)

Definition MAX_SOURCES : Z := 15.
Definition BASE_COLOUR_R : Z := 0.
Definition BASE_COLOUR_G : Z := 0.
Definition BASE_COLOUR_B : Z := 0.
Definition TRANSITION_TIME : Z := 1.
Definition ENERGY_THRESHOLD : Z := 50000.
Definition MAX_DIFFUSION_AGE : double := F64.of_int 15.
Definition MIN_SIMULTANEOUS_COLOURS : Z := 2.
Definition N_FFT_BINS : Z := 32.
Definition BEAT_COUNT : Z := 8.
Definition FRACTION_COLOUR_TO_KEEP : double := F64.lit 5 100.

(** ** Data *)

(** [RGB_t] and [HSV_t] of [ColorUtils.h]: three [int] fields each. *)
Record RGB_t := mkRGB { rgb_R : Z; rgb_G : Z; rgb_B : Z }.
Record HSV_t := mkHSV { hsv_H : Z; hsv_S : Z; hsv_V : Z }.

(** A panel of the layout: its identifier and the centroid of its shape, as
    the plugin reads it (every use converts the coordinates to [float]). *)
Record Panel := mkPanel { panelId : Z; centroid_x : float; centroid_y : float }.

Record Frame_t := mkFrame {
  frame_panelId : Z; frame_r : Z; frame_g : Z; frame_b : Z; frame_transTime : Z }.

Record source_t := mkSource {
  x : float;
  y : float;
  vx : float;
  vy : float;
  diffusion_age : float;
  R : Z;
  G : Z;
  B : Z;
  intensity : float;
  speed : float;
  energy : Z
}.

(** The statics of the translation unit.  [sources] holds the live entries
    [sources[0 .. nSources-1]] of the array; the slots behind them are never
    read.  [r] and [count] are the statics of [addSource], [maxBinIndexSum]
    and [n] those of [getPluginFrame]. *)
Record plugin_state := mkState {
  sources : list source_t;
  r : Z;
  count : Z;
  maxBinIndexSum : Z;
  n : Z
}.

Definition nSources (st : plugin_state) : Z := Z.of_nat (length (sources st)).

Definition initial_state : plugin_state :=
  {| sources := []; r := 0; count := 0; maxBinIndexSum := 0; n := 0 |}.

Definition set_sources (st : plugin_state) (l : list source_t) : plugin_state :=
  {| sources := l; r := r st; count := count st;
     maxBinIndexSum := maxBinIndexSum st; n := n st |}.

(** ** [removeSource] and [distance] *)

(** The [memmove] closes the gap at [idx]. *)
Definition removeSource (idx : nat) (l : list source_t) : list source_t :=
  delete idx l.

Definition distance (x1 y1 x2 y2 : float) : float :=
  let dx := F32.sub x2 x1 in
  let dy := F32.sub y2 y1 in
  F32.sqrt (F32.add (F32.mul dx dx) (F32.mul dy dy)).

Section Plugin.

(** The palette and the layout that [initPlugin] saves; both stay fixed
    afterwards.  [nColours] and [nPanels] are their lengths. *)
Variable paletteColours : list RGB_t.
Variable panels : list Panel.

Definition nColours : Z := Z.of_nat (length paletteColours).
Definition nPanels : Z := Z.of_nat (length panels).

(** ** [getRGB] *)

(** [(1.0 - fraction) * C1 + fraction * C2], stored into a [float]: the
    left product is computed in [double] (the literal [1.0] promotes it),
    the right one in [float], the sum in [double]. *)
Definition lerp (fraction C1 C2 : float) : float :=
  to_float
    (F64.add
       (F64.mul (F64.sub (F64.of_int 1) (to_double fraction)) (to_double C1))
       (to_double (F32.mul fraction C2))).

Definition getRGB (colour : float) : result (Z * Z * Z) :=
  if nColours =? 0 then Ok (128, 128, 128)
  else if nColours =? 1 then
    c ← index paletteColours 0;
    Ok (rgb_R c, rgb_G c, rgb_B c)
  else
    let idx := to_int colour in
    let fraction := F32.sub colour (F32.of_int idx) in
    '(fR, fG, fB) ←
      (if fleb colour (F32.of_int 0) then
         c ← index paletteColours 0;
         Ok (F32.of_int (rgb_R c), F32.of_int (rgb_G c), F32.of_int (rgb_B c))
       else if idx <? nColours - 1 then
         c1 ← index paletteColours idx;
         c2 ← index paletteColours (idx + 1);
         Ok (lerp fraction (F32.of_int (rgb_R c1)) (F32.of_int (rgb_R c2)),
             lerp fraction (F32.of_int (rgb_G c1)) (F32.of_int (rgb_G c2)),
             lerp fraction (F32.of_int (rgb_B c1)) (F32.of_int (rgb_B c2)))
       else
         c ← index paletteColours (nColours - 1);
         Ok (F32.of_int (rgb_R c), F32.of_int (rgb_G c), F32.of_int (rgb_B c)));
    Ok (to_int fR, to_int fG, to_int fB).

(** ** [addSource] *)

(** [(int)(drand48() * layoutData->nPanels - 1)] for the draw [u]. *)
Definition random_panel (u : double) : Z :=
  to_int (F64.sub (F64.mul u (F64.of_int nPanels)) (F64.of_int 1)).

(** [C *= intensity] on an [int] channel. *)
Definition scale (c : Z) (i : float) : Z := to_int (F32.mul (F32.of_int c) i).

(** The assignments of the merge branch. *)
Definition merged (s : source_t) (i sp : float) : source_t :=
  {| x := x s; y := y s; vx := vx s; vy := vy s;
     diffusion_age := F32.zero;
     R := R s; G := G s; B := B s;
     intensity := i; speed := sp; energy := energy s |}.

Definition same_position (px py : float) (s : source_t) : bool :=
  feqb (x s) px && feqb (y s) py.

(** The first loop of [addSource]: the first source at the spawn position
    is overwritten and the function returns; [None] when the loop runs to
    its end. *)
Fixpoint merge_loop (px py i sp : float) (l : list source_t)
  : option (list source_t) :=
  match l with
  | [] => None
  | s :: l' =>
      if same_position px py s then Some (merged s i sp :: l')
      else (s ::.) <$> merge_loop px py i sp l'
  end.

(** The second loop: [i] walks down from [nSources] and stops behind the
    last source that is not stronger than the new one. *)
Fixpoint insert_index (i0 : float) (l : list source_t) (i : nat) : nat :=
  match i with
  | O => O
  | S j =>
      match l !! j with
      | Some s => if fleb (intensity s) i0 then S j else insert_index i0 l j
      | None => insert_index i0 l j
      end
  end.

(** [if (nSources >= MAX_SOURCES) removeSource(0);] *)
Definition evict_if_full (l : list source_t) : list source_t :=
  if MAX_SOURCES <=? Z.of_nat (length l) then removeSource 0 l else l.

(** [addSource(colour, intensity, speed, energy)]; [u] is what [drand48()]
    returns if this call draws a panel.  [energy] is a [uint16_t] value.
    The fields [vx] and [vy] are never assigned: they keep the zero of the
    static array. *)
Definition addSource (colour i sp : float) (e : Z) (u : double)
    (st : plugin_state) : result plugin_state :=
  p ← index panels (r st);
  let px := centroid_x p in
  let py := centroid_y p in
  let count1 := count st + 1 in
  let '(r', count') :=
    if BEAT_COUNT <=? count1 then (random_panel u, 0) else (r st, count1) in
  '(cR, cG, cB) ← getRGB colour;
  let l := evict_if_full (sources st) in
  match merge_loop px py i sp l with
  | Some l' =>
      Ok {| sources := l'; r := r'; count := count';
            maxBinIndexSum := maxBinIndexSum st; n := n st |}
  | None =>
      let k := insert_index i l (length l) in
      let s := {| x := px; y := py; vx := F32.zero; vy := F32.zero;
                  diffusion_age := F32.zero;
                  R := scale cR i; G := scale cG i; B := scale cB i;
                  intensity := i; speed := sp; energy := e |} in
      Ok {| sources := take k l ++ s :: drop k l;
            r := r';
            count := if ENERGY_THRESHOLD <=? e then BEAT_COUNT else count';
            maxBinIndexSum := maxBinIndexSum st; n := n st |}
  end.

(** ** [renderPanel] *)

(** [RGBtoHSV] and [HSVtoRGB] come from the SDK's [ColorUtils]; the plugin
    only calls them. *)
Variable RGBtoHSV : RGB_t → HSV_t.
Variable HSVtoRGB : HSV_t → RGB_t.

Definition one : double := F64.of_int 1.

(** The distance-decay factor of a source at distance [d]. *)
Definition decay_factor (s : source_t) (d : float) : float :=
  if ENERGY_THRESHOLD <=? energy s then
    let d2 := to_float (F64.mul (to_double d) (F64.lit 15 1000)) in
    let d2 := to_float (F64.sub (to_double d2)
                          (F64.mul (to_double (diffusion_age s)) (F64.lit 2 10))) in
    let d2 := if fltb d2 (F64.of_int 0) then F32.zero else d2 in
    let factor :=
      to_float (F64.div one (F64.add (F64.mul (to_double d2) (F64.of_int 2)) one)) in
    let factor := if fltb one factor then F32.of_int 1 else factor in
    let factor := if fltb factor (F64.of_int 0) then F32.zero else factor in
    factor
  else
    to_float (F64.div one (F64.add (F64.mul (to_double d) (F64.lit 8 1000)) one)).

(** The age fade and the floor [FRACTION_COLOUR_TO_KEEP]. *)
Definition diffusion_factor (s : source_t) (factor : float) : float :=
  let factor :=
    if fleb MAX_DIFFUSION_AGE (diffusion_age s) then F32.zero
    else to_float
           (F64.mul (to_double factor)
              (F64.sub one (F64.div (to_double (diffusion_age s)) MAX_DIFFUSION_AGE))) in
  if fltb factor FRACTION_COLOUR_TO_KEEP
  then to_float FRACTION_COLOUR_TO_KEEP else factor.

(** [C * (1.0 - factor) + c * factor] for the running channel [C] and the
    [int] channel [c] of the source: the right product is a [float] one. *)
Definition blend (C : float) (c : Z) (factor : float) : float :=
  to_float
    (F64.add (F64.mul (to_double C) (F64.sub one (to_double factor)))
             (to_double (F32.mul (F32.of_int c) factor))).

(** One turn of the loop over the sources. *)
Definition render_step (px py : float) (C : float * float * float)
    (s : source_t) : float * float * float :=
  let '(fR, fG, fB) := C in
  let d := distance px py (x s) (y s) in
  let factor := diffusion_factor s (decay_factor s d) in
  let fR := blend fR (R s) factor in
  let fG := blend fG (G s) factor in
  let fB := blend fB (B s) factor in
  let hsv := RGBtoHSV (mkRGB (to_int fR) (to_int fG) (to_int fB)) in
  let d_factor := to_int (F64.mul (to_double d) (F64.lit 10 100)) in
  let hsv := mkHSV ((hsv_H hsv + d_factor) `rem` 360) (hsv_S hsv)
                   ((hsv_V hsv + 10) `rem` 360) in
  let rgb := HSVtoRGB hsv in
  (F32.of_int (rgb_R rgb), F32.of_int (rgb_G rgb), F32.of_int (rgb_B rgb)).

Definition clamp255 (c : Z) : Z := if 255 <? c then 255 else c.

Definition renderPanel (panel : Panel) (l : list source_t) : Z * Z * Z :=
  let '(fR, fG, fB) :=
    foldl (render_step (centroid_x panel) (centroid_y panel))
      (F32.of_int BASE_COLOUR_R, F32.of_int BASE_COLOUR_G, F32.of_int BASE_COLOUR_B)
      l in
  (clamp255 (to_int fR), clamp255 (to_int fG), clamp255 (to_int fB)).

(** ** [diffuseSources] *)

(** [sources[i].diffusion_age += sources[i].speed] *)
Definition age_source (s : source_t) : source_t :=
  {| x := x s; y := y s; vx := vx s; vy := vy s;
     diffusion_age := F32.add (diffusion_age s) (speed s);
     R := R s; G := G s; B := B s;
     intensity := intensity s; speed := speed s; energy := energy s |}.

(** [diffusion_age > MAX_DIFFUSION_AGE] *)
Definition too_old (s : source_t) : bool := fltb MAX_DIFFUSION_AGE (diffusion_age s).

(** The pruning loop at index [i]: a removal is followed by [i--] and the
    loop's [i++], so the same index is looked at again. *)
Equations? prune_loop (i : nat) (l : list source_t) : list source_t
  by wf (length l - i)%nat lt :=
  prune_loop i l with inspect (l !! i) := {
    | exist _ None _ := l
    | exist _ (Some s) H :=
        if too_old s then prune_loop i (removeSource i l)
        else prune_loop (S i) l }.
Proof.
  all: pose proof (lookup_lt_Some _ _ _ H); unfold removeSource;
    rewrite ?length_delete; eauto; lia.
Qed.

Definition diffuseSources (l : list source_t) : list source_t :=
  let l := age_source <$> l in
  if MIN_SIMULTANEOUS_COLOURS <? Z.of_nat (length l) then prune_loop 0 l else l.

(** ** [getPluginFrame] *)

(** What one tick reads from the outside: the feature getters of the sound
    module and the draws of [drand48()], in the order of the calls. *)
Record features := mkFeatures {
  getFftBins : list Z;
  getEnergy : Z;
  getIsBeat : bool;
  getIsOnset : bool;
  getTempo : Z;
  drand48_colour : double;
  drand48_panel : double
}.

(** The loop that finds the strongest bin, over the indices [ix]. *)
Fixpoint strongest_bin (fftBins : list Z) (ix : list Z) (maxBin maxBinIndex : Z)
  : result Z :=
  match ix with
  | [] => Ok maxBinIndex
  | i :: ix' =>
      b ← index fftBins i;
      if maxBin <? b then strongest_bin fftBins ix' b i
      else strongest_bin fftBins ix' maxBin maxBinIndex
  end.

(** The local [speed] of the beat branch:
    [(float)getTempo() / 50], raised to [0.2] when below it. *)
Definition beat_speed (tempo : Z) : float :=
  let speed := F32.div (F32.of_int tempo) (F32.of_int 50) in
  if fltb speed (F64.lit 2 10) then flit 2 10 else speed.

Definition render_frame (l : list source_t) (p : Panel) : Frame_t :=
  let '(cR, cG, cB) := renderPanel p l in
  mkFrame (panelId p) cR cG cB TRANSITION_TIME.

Definition getPluginFrame (a : features) (st : plugin_state)
  : result (list Frame_t * plugin_state) :=
  maxBinIndex ← strongest_bin (getFftBins a) (seqZ 0 N_FFT_BINS) 0 0;
  sum ← int_add (maxBinIndexSum st) maxBinIndex;
  n1 ← int_add (n st) 1;
  let e := getEnergy a in
  st1 ←
    (if getIsBeat a then
       maxBinIndex ← int_div sum n1;
       let st0 := {| sources := sources st; r := r st; count := count st;
                     maxBinIndexSum := 0; n := 0 |} in
       let colour := (maxBinIndex * nColours) `quot` (N_FFT_BINS `quot` 4) in
       let speed := beat_speed (getTempo a) in
       let intensity := F32.of_int 1 in
       addSource (F32.of_int colour) intensity (flit 15 10) e (drand48_panel a) st0
     else
       let st0 := {| sources := sources st; r := r st; count := count st;
                     maxBinIndexSum := sum; n := n1 |} in
       if getIsOnset a then
         addSource
           (to_float (F64.mul (drand48_colour a) (F64.of_int (nColours - 1))))
           (flit 7 10) (flit 8 10) e (drand48_panel a) st0
       else Ok st0);
  let frames := render_frame (sources st1) <$> panels in
  Ok (frames, set_sources st1 (diffuseSources (sources st1))).

End Plugin.

(** ** Runs *)

(** The arguments of one [addSource] call, with the draw it may consume. *)
Record call := mkCall {
  call_colour : float;
  call_intensity : float;
  call_speed : float;
  call_energy : Z;
  call_draw : double
}.

Section Runs.
Variable paletteColours : list RGB_t.
Variable panels : list Panel.
Variable RGBtoHSV : RGB_t → HSV_t.
Variable HSVtoRGB : HSV_t → RGB_t.

Definition addSource_call (c : call) (st : plugin_state) : result plugin_state :=
  addSource paletteColours panels (call_colour c) (call_intensity c)
    (call_speed c) (call_energy c) (call_draw c) st.

(** A sequence of [addSource] calls. *)
Fixpoint run_addSource (cs : list call) (st : plugin_state) : result plugin_state :=
  match cs with
  | [] => Ok st
  | c :: cs' => st' ← addSource_call c st; run_addSource cs' st'
  end.

(** A sequence of ticks; the frames are dropped. *)
Fixpoint run_ticks (fs : list features) (st : plugin_state) : result plugin_state :=
  match fs with
  | [] => Ok st
  | a :: fs' =>
      '(_, st') ← getPluginFrame paletteColours panels RGBtoHSV HSVtoRGB a st;
      run_ticks fs' st'
  end.

End Runs.

(** The pool is ordered when no source is followed by a weaker one. *)
Definition ordered (l : list source_t) : Prop :=
  ∀ i j si sj, (i < j)%nat → l !! i = Some si → l !! j = Some sj →
    fleb (intensity si) (intensity sj) = true.

(** The same as a test. *)
Fixpoint orderedb (l : list source_t) : bool :=
  match l with
  | [] => true
  | s :: l' =>
      forallb (λ t, fleb (intensity s) (intensity t)) l' && orderedb l'
  end.

(** The pool [l] holds a source of age zero with intensity [i] and speed
    [sp] on the centroid of [p]: what a call that spawns at [p] leaves. *)
Definition spawned_at (p : Panel) (i sp : float) (l : list source_t) : Prop :=
  ∃ k s, l !! k = Some s ∧
    diffusion_age s = F32.zero ∧ intensity s = i ∧ speed s = sp ∧
    ((x s = centroid_x p ∧ y s = centroid_y p) ∨
     same_position (centroid_x p) (centroid_y p) s = true).

(** The floor of a finite number [m * 2^e], as the specification of the
    palette interpolator words the index: "idx = floor(colourIndex)". *)
Definition SFfloor (f : spec_float) : option Z :=
  match f with
  | S754_zero _ => Some 0
  | S754_finite s m e =>
      Some (match e with
            | Z0 => cond_Zopp s (Zpos m)
            | Zpos p => cond_Zopp s (Zpos m) * 2 ^ Zpos p
            | Zneg p => cond_Zopp s (Zpos m) / 2 ^ Zpos p
            end)
  | _ => None
  end.

(** A channel value that a [float] holds exactly. *)
Definition channel_ok (c : Z) : Prop := 0 ≤ c < 2 ^ 24.

Definition rgb_ok (c : RGB_t) : Prop :=
  channel_ok (rgb_R c) ∧ channel_ok (rgb_G c) ∧ channel_ok (rgb_B c).

(** A running colour of [renderPanel] that is a triple of such channels
    held in [float]s: the base colour, or what [HSVtoRGB] returned. *)
Definition held (C : float * float * float) : Prop :=
  ∃ c, rgb_ok c ∧
       C = (F32.of_int (rgb_R c), F32.of_int (rgb_G c), F32.of_int (rgb_B c)).

(** A number that carries the sign [s]; a NaN carries none. *)
Definition signed (s : bool) (f : spec_float) : Prop :=
  match f with
  | S754_zero s' | S754_infinity s' | S754_finite s' _ _ => s' = s
  | S754_nan => False
  end.

(** A number that is neither a NaN nor an infinity. *)
Definition is_finite (f : spec_float) : Prop :=
  match f with
  | S754_zero _ | S754_finite _ _ _ => True
  | _ => False
  end.

(** A number of magnitude below [2^k], zero included. *)
Definition below (k : Z) (f : spec_float) : Prop :=
  match f with
  | S754_zero _ => True
  | S754_finite _ m e => e ≤ k ∧ Zpos m < 2 ^ (k - e)
  | _ => False
  end.

(** A relation that holds between every entry of a list and every later
    entry. *)
Fixpoint pairwise {A} (Rel : A → A → Prop) (l : list A) : Prop :=
  match l with
  | [] => True
  | a :: l' => Forall (Rel a) l' ∧ pairwise Rel l'
  end.

(** No source of the pool sits where an earlier one sits, in the sense of
    the test of the merge loop. *)
Definition apart (s t : source_t) : Prop := same_position (x s) (y s) t = false.
Definition distinct_positions (l : list source_t) : Prop := pairwise apart l.

(** A colour stop with channels in [0, 255]. *)
Definition byte_ok (c : Z) : Prop := 0 ≤ c ≤ 255.
Definition byte_rgb (c : RGB_t) : Prop :=
  byte_ok (rgb_R c) ∧ byte_ok (rgb_G c) ∧ byte_ok (rgb_B c).

(** The state a run ends in. *)
Definition state_of (m : result plugin_state) : plugin_state :=
  match m with Ok st => st | Fault _ => initial_state end.

(** ** Scenarios *)

(** Concrete inputs on which the functions are run: a palette of three
    stops, twenty panels in a row, and calls shaped like the two calls of
    [getPluginFrame]. *)
Module Scenario.

Definition palette : list RGB_t :=
  [mkRGB 255 0 0; mkRGB 0 255 0; mkRGB 0 0 255].

Definition panel (i : Z) : Panel :=
  mkPanel (100 + i) (F32.of_int (87 * i)) (F32.of_int 0).

Definition layout : list Panel := panel <$> seqZ 0 20.

(** A draw of [drand48()] for which [random_panel] picks index [j] of the
    layout: [(2j + 3) / 40], so that [u * 20 - 1 = j + 0.5]. *)
Definition draw (j : Z) : double := F64.lit (2 * j + 3) 40.

(** The call of the beat branch (intensity [1.0], speed [1.5]) and the one
    of the onset branch (intensity [0.7], speed [0.8]). *)
Definition beat (colour e : Z) (u : double) : call :=
  mkCall (F32.of_int colour) (F32.of_int 1) (flit 15 10) e u.
Definition onset (colour : float) (e : Z) (u : double) : call :=
  mkCall colour (flit 7 10) (flit 8 10) e u.

(** Two calls on the current panel: the first inserts a source there and,
    with its energy above the threshold, sets [count] to [BEAT_COUNT]; the
    second then merges into it and moves [r] to panel [next]. *)
Definition spawn_then_move (c : Z → double → call) (next : Z) : list call :=
  [c 60000 (draw 0); c 100 (draw next)].

(** Fifteen sources on the panels 0 .. 14: fourteen such pairs and one more
    insertion; [r] stays on panel 14. *)
Definition fill_pool : list call :=
  mjoin ((λ j, spawn_then_move (beat 1) (j + 1)) <$> seqZ 0 14)
  ++ [beat 1 60000 (draw 0)].

Definition full_pool : result plugin_state :=
  run_addSource palette layout fill_pool initial_state.

(** Two onset sources on the panels 0 and 1, a beat source on panel 2; [r]
    ends on panel 0. *)
Definition mixed_pool : result plugin_state :=
  run_addSource palette layout
    (spawn_then_move (onset (F32.of_int 0)) 1
     ++ spawn_then_move (onset (F32.of_int 0)) 2
     ++ spawn_then_move (beat 1) 0)
    initial_state.

(** Three sources of speed 16 on the panels 0, 1 and 2. *)
Definition fast (e : Z) (u : double) : call :=
  mkCall (F32.of_int 1) (F32.of_int 1) (F32.of_int 16) e u.

Definition fast_pool : result plugin_state :=
  run_addSource palette layout
    (spawn_then_move fast 1 ++ spawn_then_move fast 2 ++ [fast 60000 (draw 0)])
    initial_state.

(** A conventional integer conversion between RGB and HSV (hue in degrees,
    saturation and value in percent, arguments saturated to their ranges).
    It stands in for the SDK's [RGBtoHSV] and [HSVtoRGB] where a tick or a
    rendering is run on concrete inputs. *)
Definition sat (lo hi v : Z) : Z := Z.max lo (Z.min hi v).

Definition RGBtoHSV (c : RGB_t) : HSV_t :=
  let cr := sat 0 255 (rgb_R c) in
  let cg := sat 0 255 (rgb_G c) in
  let cb := sat 0 255 (rgb_B c) in
  let hi := Z.max cr (Z.max cg cb) in
  let lo := Z.min cr (Z.min cg cb) in
  let delta := hi - lo in
  let h :=
    if delta =? 0 then 0
    else if hi =? cr then (60 * (cg - cb) / delta) `mod` 360
    else if hi =? cg then 120 + 60 * (cb - cr) / delta
    else 240 + 60 * (cr - cg) / delta in
  mkHSV h (if hi =? 0 then 0 else delta * 100 / hi) (hi * 100 / 255).

Definition HSVtoRGB (c : HSV_t) : RGB_t :=
  let h := hsv_H c `mod` 360 in
  let s := sat 0 100 (hsv_S c) in
  let v := sat 0 359 (hsv_V c) * 255 / 100 in
  let chroma := v * s / 100 in
  let second := chroma * (60 - Z.abs (h `mod` 120 - 60)) / 60 in
  let m := v - chroma in
  let '(cr, cg, cb) :=
    match h / 60 with
    | 0 => (chroma, second, 0)
    | 1 => (second, chroma, 0)
    | 2 => (0, chroma, second)
    | 3 => (0, second, chroma)
    | 4 => (second, 0, chroma)
    | _ => (chroma, 0, second)
    end in
  mkRGB (cr + m) (cg + m) (cb + m).

(** What a tick reads: silence with the given flags and tempo. *)
Definition tick (isBeat isOnset : bool) (e tempo : Z) : features :=
  mkFeatures (replicate 32 0) e isBeat isOnset tempo (F64.lit 1 2) (draw 3).

(** A tick whose strongest bin is bin [b]. *)
Definition loud_tick (b : nat) (isBeat isOnset : bool) (e : Z) : features :=
  mkFeatures (replicate b 0 ++ [200] ++ replicate (31 - b) 0) e isBeat isOnset
    100 (F64.lit 1 2) (draw 3).

(** An onset source on panel 0 and a beat source on panel 1; [r] ends on
    panel 2, where no source sits. *)
Definition two_pool : result plugin_state :=
  run_addSource palette layout
    (spawn_then_move (onset (F32.of_int 0)) 1 ++ spawn_then_move (beat 1) 2)
    initial_state.

End Scenario.

(** * Properties *)

Lemma bind_Ok_inv {A B} (m : result A) (k : A → result B) b :
  m ≫= k = Ok b → ∃ a, m = Ok a ∧ k a = Ok b.
Proof. destruct m as [a|f]; simpl; [eauto | intros [=]]. Qed.

Lemma index_Ok_lookup {A} (a : list A) i v :
  index a i = Ok v ↔ 0 ≤ i ∧ a !! Z.to_nat i = Some v.
Proof.
  unfold index. destruct (Z.leb_spec 0 i).
  - destruct (a !! Z.to_nat i) as [w|].
    + split; [intros [= ->]; auto | intros [_ [= ->]]; reflexivity].
    + split; [intros [=] | intros [_ [=]]].
  - split; [intros [=] | lia].
Qed.

(** *** Floating point *)

Lemma digits2_pos_iter_xO m k :
  digits2_pos (Pos.iter xO m k) = (digits2_pos m + k)%positive.
Proof.
  induction k as [|k IH] using Pos.peano_ind.
  - simpl. lia.
  - rewrite Pos.iter_succ. simpl. rewrite IH. lia.
Qed.

Lemma Zpos_iter_xO m k : Zpos (Pos.iter xO m k) = Zpos m * 2 ^ Zpos k.
Proof.
  induction k as [|k IH] using Pos.peano_ind.
  - simpl. lia.
  - rewrite Pos.iter_succ, Pos2Z.inj_xO, IH, Pos2Z.inj_succ, Z.pow_succ_r by lia.
    lia.
Qed.

Lemma digits2_pos_lower m : 2 ^ (Zpos (digits2_pos m) - 1) ≤ Zpos m.
Proof.
  induction m as [m IH|m IH|]; simpl digits2_pos; [| |simpl; lia];
    rewrite Pos2Z.inj_succ;
    replace (Z.succ (Zpos (digits2_pos m)) - 1)
      with (Z.succ (Zpos (digits2_pos m) - 1)) by lia;
    rewrite Z.pow_succ_r by lia; lia.
Qed.

Lemma shr_fexp_canonical prec emax m e :
  canonical_mantissa prec emax m e = true →
  shr_fexp prec emax (Zpos m) e loc_Exact =
  ({| shr_m := Zpos m; shr_r := false; shr_s := false |}, e).
Proof.
  unfold canonical_mantissa, shr_fexp. intros H%Z.eqb_eq.
  simpl Zdigits2. rewrite H, Z.sub_diag. reflexivity.
Qed.

(** Rounding leaves a canonical mantissa alone. *)
Lemma binary_round_aux_canonical prec emax s m e :
  canonical_mantissa prec emax m e = true →
  e ≤ emax - prec →
  binary_round_aux prec emax s (Zpos m) e loc_Exact = S754_finite s m e.
Proof.
  intros Hc He. unfold binary_round_aux.
  rewrite (shr_fexp_canonical _ _ _ _ Hc). simpl.
  rewrite (shr_fexp_canonical _ _ _ _ Hc). simpl.
  destruct (Z.leb_spec e (emax - prec)); [reflexivity | lia].
Qed.

(** An [int] below [2^24] goes to [float] and back unchanged. *)
Lemma F32_of_int_exact z : channel_ok z → to_int (F32.of_int z) = z.
Proof.
  unfold channel_ok. intros Hz. destruct z as [|m|m]; [reflexivity| |lia].
  unfold F32.of_int, binary_normalize, binary_round.
  pose proof (digits2_pos_lower m) as Hlow.
  assert (Hd : Zpos (digits2_pos m) ≤ 24).
  { destruct (Z.le_gt_cases (Zpos (digits2_pos m)) 24) as [|Hgt]; [assumption|].
    assert (2 ^ 24 ≤ 2 ^ (Zpos (digits2_pos m) - 1))
      by (apply Z.pow_le_mono_r; lia).
    lia. }
  unfold shl_align, fexp, emin, F32.prec, F32.emax.
  rewrite Z.max_l by lia.
  destruct (Zpos (digits2_pos m) + 0 - 24 - 0) as [|k|k] eqn:Hk; [|lia|].
  - rewrite binary_round_aux_canonical.
    + unfold to_int, SFtrunc. simpl cond_Zopp.
      unfold int_range, INT_MIN, INT_MAX.
      destruct (Z.leb_spec (-2147483648) (Zpos m)),
        (Z.leb_spec (Zpos m) 2147483647); simpl; lia.
    + unfold canonical_mantissa, fexp, emin. apply Z.eqb_eq. lia.
    + lia.
  - rewrite binary_round_aux_canonical.
    + unfold to_int, SFtrunc. simpl cond_Zopp.
      replace (Zpos (digits2_pos m) + 0 - 24) with (Zneg k) by lia.
      rewrite Zpos_iter_xO, Z.div_mul by lia.
      unfold int_range, INT_MIN, INT_MAX.
      destruct (Z.leb_spec (-2147483648) (Zpos m)),
        (Z.leb_spec (Zpos m) 2147483647); simpl; lia.
    + unfold canonical_mantissa, fexp, emin. apply Z.eqb_eq.
      rewrite digits2_pos_iter_xO. lia.
    + lia.
Qed.

Lemma shr_1_nonneg mrs : 0 ≤ shr_m mrs → 0 ≤ shr_m (shr_1 mrs).
Proof.
  destruct mrs as [m r s]. destruct m as [|p|p]; simpl; [lia| |lia].
  destruct p; simpl; lia.
Qed.

Lemma iter_shr_1_nonneg p : ∀ mrs,
  0 ≤ shr_m mrs → 0 ≤ shr_m (SpecFloat.iter_pos (A:=shr_record) shr_1 p mrs).
Proof.
  induction p as [p IH|p IH|]; intros mrs H; simpl.
  - apply IH, IH, shr_1_nonneg, H.
  - apply IH, IH, H.
  - apply shr_1_nonneg, H.
Qed.

Lemma shr_fexp_nonneg prec emax m e l :
  0 ≤ m → 0 ≤ shr_m (shr_fexp prec emax m e l).1.
Proof.
  intros Hm. unfold shr_fexp, shr.
  assert (H0 : 0 ≤ shr_m (shr_record_of_loc m l))
    by (destruct l as [|[]]; simpl; exact Hm).
  destruct (fexp prec emax (Zdigits2 m + e) - e); simpl; auto.
  apply iter_shr_1_nonneg, H0.
Qed.

Lemma round_nearest_even_nonneg m l : 0 ≤ m → 0 ≤ round_nearest_even m l.
Proof.
  intros Hm. destruct l as [|[]]; simpl; try lia.
  destruct (Z.even m); lia.
Qed.

(** Rounding keeps the sign and never yields a NaN. *)
Lemma binary_round_aux_signed prec emax s m e l :
  0 ≤ m → signed s (binary_round_aux prec emax s m e l).
Proof.
  intros Hm. unfold binary_round_aux.
  pose proof (shr_fexp_nonneg prec emax m e l Hm) as H1.
  destruct (shr_fexp prec emax m e l) as [mrs' e']. simpl in H1.
  pose proof (shr_fexp_nonneg prec emax _ e' loc_Exact
                (round_nearest_even_nonneg _ (loc_of_shr_record mrs') H1)) as H2.
  destruct (shr_fexp prec emax _ e' loc_Exact) as [mrs'' e'']. simpl in H2.
  destruct (shr_m mrs'') as [|p|p]; simpl; [reflexivity| |lia].
  destruct (e'' <=? emax - prec); reflexivity.
Qed.

Lemma binary_round_signed prec emax s m e :
  signed s (binary_round prec emax s m e).
Proof.
  unfold binary_round. destruct (shl_align m e _) as [mz ez].
  apply binary_round_aux_signed. lia.
Qed.

Lemma to_double_signed s f : signed s f → signed s (to_double f).
Proof.
  destruct f; simpl; auto. intros ->. apply binary_round_signed.
Qed.

(** [colour <= 0] fails on a finite number only when it is positive. *)
Lemma fleb_zero_false s m e :
  fleb (S754_finite s m e) (F32.of_int 0) = false → s = false.
Proof.
  unfold fleb, fcmp. change (to_double (F32.of_int 0)) with (S754_zero false).
  pose proof (to_double_signed s (S754_finite s m e) eq_refl) as H.
  destruct (to_double (S754_finite s m e)) as [s'|s'| |s' m' e']; simpl in *;
    subst; try tauto; destruct s; simpl; congruence.
Qed.

(** On a positive number the conversion [(int)f] is the floor, as long as
    the floor fits an [int]. *)
Lemma to_int_floor m e idx :
  SFfloor (S754_finite false m e) = Some idx →
  0 ≤ idx ∧ (idx ≤ INT_MAX → to_int (S754_finite false m e) = idx).
Proof.
  unfold to_int, SFfloor, SFtrunc. simpl cond_Zopp. intros [= <-].
  assert (H0 : 0 ≤ match e with
                   | 0 => Z.pos m
                   | Z.pos p => Z.pos m * 2 ^ Z.pos p
                   | Z.neg p => Z.pos m `div` 2 ^ Z.pos p
                   end).
  { destruct e as [|p|p]; [lia | | apply Z.div_pos; lia].
    assert (0 < 2 ^ Z.pos p) by (apply Z.pow_pos_nonneg; lia). lia. }
  split; [exact H0|]. unfold int_range, INT_MIN, INT_MAX in *. intros Hmax.
  destruct (Z.leb_spec (-2147483648)
              match e with
              | 0 => Z.pos m
              | Z.pos p => Z.pos m * 2 ^ Z.pos p
              | Z.neg p => Z.pos m `div` 2 ^ Z.pos p
              end); [|lia].
  destruct (Z.leb_spec
              match e with
              | 0 => Z.pos m
              | Z.pos p => Z.pos m * 2 ^ Z.pos p
              | Z.neg p => Z.pos m `div` 2 ^ Z.pos p
              end 2147483647); [reflexivity | lia].
Qed.

Section PoolProperties.
Variable pal : list RGB_t.
Variable lay : list Panel.

(** *** The two loops of [addSource] *)

Lemma merge_loop_length px py i sp l l' :
  merge_loop px py i sp l = Some l' → length l' = length l.
Proof.
  revert l'; induction l as [|s l IH]; intros l'; simpl; [intros [=]|].
  destruct (same_position px py s).
  - intros [= <-]. reflexivity.
  - destruct (merge_loop px py i sp l) as [l1|]; simpl; [|intros [=]].
    intros [= <-]. simpl. f_equal. auto.
Qed.

Lemma merge_loop_None px py i sp l :
  merge_loop px py i sp l = None ↔ Forall (λ s, same_position px py s = false) l.
Proof.
  induction l as [|s l IH]; simpl.
  - split; [constructor | reflexivity].
  - destruct (same_position px py s) eqn:E.
    + split; [intros [=] | inversion 1; congruence].
    + destruct (merge_loop px py i sp l); simpl.
      * split; [intros [=] | inversion 1; subst].
        exfalso. assert (Some l0 = None) as [=]. apply IH; assumption.
      * split; [constructor; [assumption | apply IH; reflexivity] | reflexivity].
Qed.

(** The loop overwrites the first source at the spawn position. *)
Lemma merge_loop_first px py i sp l k s :
  l !! k = Some s →
  same_position px py s = true →
  (∀ j sj, (j < k)%nat → l !! j = Some sj → same_position px py sj = false) →
  merge_loop px py i sp l = Some (<[k := merged s i sp]> l).
Proof.
  revert k; induction l as [|s0 l IH]; intros k Hk Hs Hbefore; [discriminate|].
  destruct k as [|k]; simpl in *.
  - simplify_eq. rewrite Hs. reflexivity.
  - rewrite (Hbefore 0%nat s0); [|lia|reflexivity].
    rewrite (IH k); [reflexivity|assumption..|].
    intros j sj Hj Hl. apply (Hbefore (S j)); [lia | exact Hl].
Qed.

Lemma insert_index_le i0 l k : (insert_index i0 l k ≤ k)%nat.
Proof.
  induction k as [|k IH]; simpl; [lia|].
  destruct (l !! k) as [s|]; [destruct (fleb (intensity s) i0)|]; lia.
Qed.

Lemma length_inserted {A} (l : list A) k s :
  length (take k l ++ s :: drop k l) = S (length l).
Proof.
  rewrite length_app; simpl. rewrite length_take, length_drop. lia.
Qed.

(** What a successful call did: it merged into the pool left after the
    eviction, or it inserted a new source into it. *)
Lemma addSource_Ok_inv colour i sp e u st st' :
  addSource pal lay colour i sp e u st = Ok st' →
  ∃ p cR cG cB,
    index lay (r st) = Ok p ∧
    getRGB pal colour = Ok (cR, cG, cB) ∧
    let l := evict_if_full (sources st) in
    let count1 := count st + 1 in
    let rc := if BEAT_COUNT <=? count1
              then (random_panel lay u, 0) else (r st, count1) in
    maxBinIndexSum st' = maxBinIndexSum st ∧ n st' = n st ∧ r st' = rc.1 ∧
    ((∃ l', merge_loop (centroid_x p) (centroid_y p) i sp l = Some l' ∧
            sources st' = l' ∧ count st' = rc.2) ∨
     (merge_loop (centroid_x p) (centroid_y p) i sp l = None ∧
      (∃ k s, sources st' = take k l ++ s :: drop k l ∧
              k = insert_index i l (length l) ∧
              x s = centroid_x p ∧ y s = centroid_y p ∧
              diffusion_age s = F32.zero ∧ intensity s = i ∧ speed s = sp ∧
              energy s = e) ∧
      count st' = if ENERGY_THRESHOLD <=? e then BEAT_COUNT else rc.2)).
Proof.
  unfold addSource. intros H.
  apply bind_Ok_inv in H as (p & Hp & H).
  destruct (BEAT_COUNT <=? count st + 1) eqn:Hc;
    apply bind_Ok_inv in H as ([[cR cG] cB] & Hrgb & H);
    exists p, cR, cG, cB; (split; [exact Hp|]); (split; [exact Hrgb|]);
    cbv zeta; rewrite ?Hc;
    destruct (merge_loop _ _ _ _ _) as [l'|] eqn:Hm; simplify_eq; simpl;
    (split; [reflexivity|]); (split; [reflexivity|]); (split; [reflexivity|]);
    solve [ left; eauto
          | right; split; [reflexivity|]; split; [|reflexivity];
            eexists _, _; split; [reflexivity|]; simpl; auto 10 ].
Qed.

End PoolProperties.

Section Capacity.
Variable pal : list RGB_t.
Variable lay : list Panel.

Lemma addSource_length colour i sp e u st st' :
  addSource pal lay colour i sp e u st = Ok st' →
  (nSources st ≤ MAX_SOURCES → nSources st' ≤ MAX_SOURCES) ∧
  (nSources st < MAX_SOURCES → nSources st ≤ nSources st' ≤ nSources st + 1).
Proof.
  intros H. apply addSource_Ok_inv in H
    as (p & cR & cG & cB & _ & _ & _ & _ & _ & H).
  unfold evict_if_full, nSources, MAX_SOURCES, removeSource in *.
  assert (Hl : ∀ l : list source_t, length (delete 0%nat l) = (length l - 1)%nat)
    by (intros [|? ?]; simpl; lia).
  destruct H as [(l' & Hm & -> & _) | (_ & (k & s & -> & _) & _)].
  - apply merge_loop_length in Hm. rewrite Hm.
    destruct (Z.leb_spec 15 (Z.of_nat (length (sources st))));
      rewrite ?Hl; lia.
  - rewrite length_inserted.
    destruct (Z.leb_spec 15 (Z.of_nat (length (sources st))));
      rewrite ?Hl; lia.
Qed.




End Capacity.


Section Merge.
Variable pal : list RGB_t.
Variable lay : list Panel.

(** The call, once the panel and the colour are resolved. *)
Lemma addSource_resolved colour i sp e u st p cR cG cB :
  index lay (r st) = Ok p →
  getRGB pal colour = Ok (cR, cG, cB) →
  addSource pal lay colour i sp e u st =
  let l := evict_if_full (sources st) in
  let r' := if BEAT_COUNT <=? count st + 1 then random_panel lay u else r st in
  let count' := if BEAT_COUNT <=? count st + 1 then 0 else count st + 1 in
  match merge_loop (centroid_x p) (centroid_y p) i sp l with
  | Some l' =>
      Ok {| sources := l'; r := r'; count := count';
            maxBinIndexSum := maxBinIndexSum st; n := n st |}
  | None =>
      let k := insert_index i l (length l) in
      let s := {| x := centroid_x p; y := centroid_y p;
                  vx := F32.zero; vy := F32.zero; diffusion_age := F32.zero;
                  R := scale cR i; G := scale cG i; B := scale cB i;
                  intensity := i; speed := sp; energy := e |} in
      Ok {| sources := take k l ++ s :: drop k l; r := r';
            count := if ENERGY_THRESHOLD <=? e then BEAT_COUNT else count';
            maxBinIndexSum := maxBinIndexSum st; n := n st |}
  end.
Proof.
  intros Hp Hrgb. unfold addSource. rewrite Hp; simpl. rewrite Hrgb; simpl.
  destruct (BEAT_COUNT <=? count st + 1); reflexivity.
Qed.

Lemma is_Ok_inv {A} (m : result A) : is_Ok m → ∃ a, m = Ok a.
Proof. destruct m; simpl; [eauto | tauto]. Qed.

(** C3, as amended.  While the pool holds fewer than 15 sources, a call
    whose spawn position equals the position of a source in the pool
    merges into the first such source: its age is reset to zero, its
    intensity and speed are overwritten, the count does not change and
    every other entry stays as it was. *)
Theorem addSource_merge_below_capacity colour i sp e u st p k s :
  index lay (r st) = Ok p →
  is_Ok (getRGB pal colour) →
  nSources st < MAX_SOURCES →
  sources st !! k = Some s →
  same_position (centroid_x p) (centroid_y p) s = true →
  (∀ j sj, (j < k)%nat → sources st !! j = Some sj →
     same_position (centroid_x p) (centroid_y p) sj = false) →
  ∃ st', addSource pal lay colour i sp e u st = Ok st' ∧
    sources st' = <[k := merged s i sp]> (sources st) ∧
    nSources st' = nSources st ∧
    sources st' !! k = Some (merged s i sp) ∧
    ∀ j, j ≠ k → sources st' !! j = sources st !! j.
Proof.
  intros Hp Hrgb Hn Hk Hs Hfirst.
  apply is_Ok_inv in Hrgb as ([[cR cG] cB] & Hrgb).
  rewrite (addSource_resolved _ _ _ _ _ _ _ _ _ _ Hp Hrgb). cbv zeta.
  assert (Hl : evict_if_full (sources st) = sources st).
  { unfold evict_if_full, nSources in *.
    destruct (Z.leb_spec MAX_SOURCES (Z.of_nat (length (sources st)))); [lia | reflexivity]. }
  rewrite Hl, (merge_loop_first _ _ _ _ _ k s Hk Hs Hfirst).
  eexists. split; [reflexivity|]. simpl.
  split; [reflexivity|]. split; [unfold nSources; simpl; rewrite length_insert; reflexivity|].
  split.
  - apply list_lookup_insert_eq. eapply lookup_lt_Some; eassumption.
  - intros j Hj. apply list_lookup_insert_ne. congruence.
Qed.

End Merge.

(** In the scenario: the second call of a pair merges into the source the
    first one inserted. *)
Lemma addSource_merge_below_capacity_witness :
  ∃ st st' s,
    run_addSource Scenario.palette Scenario.layout
      [Scenario.beat 1 60000 (Scenario.draw 0)] initial_state = Ok st ∧
    sources st !! 0%nat = Some s ∧
    addSource_call Scenario.palette Scenario.layout
      (Scenario.beat 2 100 (Scenario.draw 3)) st = Ok st' ∧
    sources st' = <[0%nat := merged s (F32.of_int 1) (flit 15 10)]> (sources st).
Proof.
  eexists. 
  destruct (addSource_merge_below_capacity Scenario.palette Scenario.layout
              (F32.of_int 2) (F32.of_int 1) (flit 15 10) 100 (Scenario.draw 3)
              {| sources :=
                   [{| x := F32.of_int 0; y := F32.of_int 0;
                       vx := F32.zero; vy := F32.zero; diffusion_age := F32.zero;
                       R := 0; G := 255; B := 0;
                       intensity := F32.of_int 1; speed := flit 15 10;
                       energy := 60000 |}];
                 r := 0; count := 8; maxBinIndexSum := 0; n := 0 |}
              (Scenario.panel 0) 0%nat
              {| x := F32.of_int 0; y := F32.of_int 0;
                 vx := F32.zero; vy := F32.zero; diffusion_age := F32.zero;
                 R := 0; G := 255; B := 0;
                 intensity := F32.of_int 1; speed := flit 15 10;
                 energy := 60000 |})
    as (st' & Hcall & Hsrc & _).
  - vm_compute; reflexivity.
  - vm_compute; exact I.
  - vm_compute; reflexivity.
  - reflexivity.
  - vm_compute; reflexivity.
  - intros j sj Hj; lia.
  - exists st'. eexists. split; [vm_compute; reflexivity|].
    split; [reflexivity|]. split; [exact Hcall | exact Hsrc].
Defined.

(** C3, counterexample.  On the full pool of the scenario the next call
    resolves the position of the source at index 14.  The eviction comes
    before the search: the source at index 0 is removed, the merge then
    happens at index 13, and the pool is left with 14 sources. *)
Lemma addSource_merge_at_capacity_evicts :
  ∃ st st' p s,
    Scenario.full_pool = Ok st ∧
    nSources st = MAX_SOURCES ∧
    index Scenario.layout (r st) = Ok p ∧
    sources st !! 14%nat = Some s ∧
    same_position (centroid_x p) (centroid_y p) s = true ∧
    addSource_call Scenario.palette Scenario.layout
      (Scenario.beat 1 100 (Scenario.draw 5)) st = Ok st' ∧
    nSources st' = 14 ∧ nSources st' ≠ nSources st ∧
    sources st' =
      <[13%nat := merged s (F32.of_int 1) (flit 15 10)]>
        (removeSource 0 (sources st)).
Proof.
  do 4 eexists.
  split; [vm_compute; reflexivity|].
  split; [vm_compute; reflexivity|].
  split; [vm_compute; reflexivity|].
  split; [vm_compute; reflexivity|].
  split; [vm_compute; reflexivity|].
  split; [vm_compute; reflexivity|].
  split; [vm_compute; reflexivity|].
  split; [vm_compute; intros [=]|].
  vm_compute; reflexivity.
Qed.

Lemma orderedb_ordered l : orderedb l = true ↔ ordered l.
Proof.
  unfold ordered. induction l as [|s l IH]; simpl.
  - split; [intros _ i j si sj _ Hi; destruct i; discriminate | reflexivity].
  - rewrite andb_true_iff, forallb_forall, IH. split.
    + intros [Hs Hl] i j si sj Hij Hi Hj.
      destruct j as [|j]; [lia|]. simpl in Hj.
      destruct i as [|i]; simpl in Hi.
      * injection Hi as <-. apply Hs.
        apply list_elem_of_In, list_elem_of_lookup. eauto.
      * apply (Hl i j); [lia | assumption..].
    + intros H. split.
      * intros t Ht. apply list_elem_of_In, list_elem_of_lookup in Ht as [j Hj].
        apply (H 0%nat (S j)); [lia | reflexivity | exact Hj].
      * intros i j si sj Hij Hi Hj. apply (H (S i) (S j)); [lia | assumption..].
Qed.

(** C2, at the failing input.  The pool of the scenario holds two onset
    sources (intensity 0.7) and a beat source (intensity 1.0) and is
    ordered.  A beat on the panel of the first onset source merges into it:
    the intensity at index 0 becomes 1.0 and the source stays at index 0,
    in front of the onset source at index 1. *)
Theorem addSource_merge_breaks_ordering :
  ∃ st st',
    Scenario.mixed_pool = Ok st ∧
    ordered (sources st) ∧
    addSource_call Scenario.palette Scenario.layout
      (Scenario.beat 1 100 (Scenario.draw 0)) st = Ok st' ∧
    intensity <$> sources st' = [F32.of_int 1; flit 7 10; F32.of_int 1] ∧
    ¬ ordered (sources st').
Proof.
  do 2 eexists.
  split; [vm_compute; reflexivity|].
  split; [apply orderedb_ordered; vm_compute; reflexivity|].
  split; [vm_compute; reflexivity|].
  split; [vm_compute; reflexivity|].
  rewrite <- orderedb_ordered. vm_compute. discriminate.
Qed.

Section Rotation.
Variable pal : list RGB_t.
Variable lay : list Panel.

Lemma merge_loop_Some_inv px py i sp l l' :
  merge_loop px py i sp l = Some l' →
  ∃ k s, l !! k = Some s ∧ same_position px py s = true ∧
         l' = <[k := merged s i sp]> l.
Proof.
  revert l'; induction l as [|s0 l IH]; intros l'; simpl; [intros [=]|].
  destruct (same_position px py s0) eqn:E.
  - intros [= <-]. exists 0%nat, s0. auto.
  - destruct (merge_loop px py i sp l) as [l1|]; simpl; [|intros [=]].
    intros [= <-]. destruct (IH l1 eq_refl) as (k & s & Hk & Hs & ->).
    exists (S k), s. auto.
Qed.

(** Every call that returns leaves a source of age zero, with the
    intensity and speed of the call, on the panel that [r] pointed to when
    the call began; [r] moves only when the counter reaches [BEAT_COUNT]. *)
Lemma addSource_spawns colour i sp e u st p :
  index lay (r st) = Ok p →
  is_Ok (getRGB pal colour) →
  ∃ st', addSource pal lay colour i sp e u st = Ok st' ∧
    r st' = (if BEAT_COUNT <=? count st + 1 then random_panel lay u else r st) ∧
    spawned_at p i sp (sources st').
Proof.
  intros Hp Hrgb. apply is_Ok_inv in Hrgb as ([[cR cG] cB] & Hrgb).
  rewrite (addSource_resolved _ _ _ _ _ _ _ _ _ _ _ _ Hp Hrgb). cbv zeta.
  destruct (merge_loop _ _ _ _ _) as [l'|] eqn:Hm.
  - eexists. split; [reflexivity|]. split; [reflexivity|]. simpl.
    apply merge_loop_Some_inv in Hm as (k & s & Hk & Hs & ->).
    exists k, (merged s i sp).
    split; [apply list_lookup_insert_eq; eapply lookup_lt_Some; eassumption|].
    repeat split. right. exact Hs.
  - eexists. split; [reflexivity|]. split; [reflexivity|]. simpl.
    set (l := evict_if_full (sources st)).
    set (k := insert_index i l (length l)).
    eexists k, _. split.
    + assert (Hk : length (take k l) = k)
        by (rewrite length_take; apply Nat.min_l, insert_index_le).
      rewrite lookup_app_r by (rewrite Hk; reflexivity).
      rewrite Hk, Nat.sub_diag. reflexivity.
    + simpl. repeat split. left. split; reflexivity.
Qed.

(** C8, as amended.  A call with energy at or above the threshold that
    inserts a new source (its spawn position is free in the pool left by
    the eviction) sets the counter to [BEAT_COUNT].  The call that follows
    still spawns on the panel that [r] points to after the current call,
    which is the current call's own panel unless that call rotated by
    itself; it only stores the freshly drawn index in [r], for the call
    after it. *)
Theorem addSource_energy_rotation colour i sp e u st p :
  index lay (r st) = Ok p →
  is_Ok (getRGB pal colour) →
  Forall (λ s, same_position (centroid_x p) (centroid_y p) s = false)
    (evict_if_full (sources st)) →
  ENERGY_THRESHOLD ≤ e →
  ∃ st1, addSource pal lay colour i sp e u st = Ok st1 ∧
    count st1 = BEAT_COUNT ∧
    (count st + 1 < BEAT_COUNT → r st1 = r st) ∧
    ∀ colour2 i2 sp2 e2 u2 p1,
      index lay (r st1) = Ok p1 →
      is_Ok (getRGB pal colour2) →
      ∃ st2, addSource pal lay colour2 i2 sp2 e2 u2 st1 = Ok st2 ∧
        r st2 = random_panel lay u2 ∧
        spawned_at p1 i2 sp2 (sources st2).
Proof.
  intros Hp Hrgb Hfree He.
  destruct (addSource_spawns colour i sp e u st p Hp Hrgb)
    as (st1 & Hcall & Hr & _).
  exists st1. split; [exact Hcall|].
  apply (merge_loop_None _ _ i sp) in Hfree.
  apply addSource_Ok_inv in Hcall
    as (p' & cR & cG & cB & Hp' & _ & _ & _ & _ & Hcase).
  rewrite Hp in Hp'. injection Hp' as <-.
  destruct Hcase as [(l' & Hm & _) | (_ & _ & Hcount)]; [congruence|].
  assert (Hthr : (ENERGY_THRESHOLD <=? e) = true) by (apply Z.leb_le; exact He).
  rewrite Hthr in Hcount. split; [exact Hcount|]. split.
  - intros Hlt. rewrite Hr.
    destruct (Z.leb_spec BEAT_COUNT (count st + 1)); [lia | reflexivity].
  - intros colour2 i2 sp2 e2 u2 p1 Hp1 Hrgb2.
    destruct (addSource_spawns colour2 i2 sp2 e2 u2 st1 p1 Hp1 Hrgb2)
      as (st2 & Hcall2 & Hr2 & Hsp).
    exists st2. split; [exact Hcall2|]. split; [|exact Hsp].
    rewrite Hr2, Hcount. reflexivity.
Qed.

End Rotation.

(** In the scenario: the first call from the initial state. *)
Lemma addSource_energy_rotation_witness :
  ∃ st1, addSource Scenario.palette Scenario.layout
           (F32.of_int 1) (F32.of_int 1) (flit 15 10) 60000 (Scenario.draw 7)
           initial_state = Ok st1 ∧
         count st1 = BEAT_COUNT ∧ r st1 = 0.
Proof.
  destruct (addSource_energy_rotation Scenario.palette Scenario.layout
              (F32.of_int 1) (F32.of_int 1) (flit 15 10) 60000 (Scenario.draw 7)
              initial_state (Scenario.panel 0))
    as (st1 & Hcall & Hcount & Hr & _).
  - vm_compute; reflexivity.
  - vm_compute; exact I.
  - constructor.
  - unfold ENERGY_THRESHOLD; lia.
  - exists st1. split; [exact Hcall|]. split; [exact Hcount|].
    apply Hr. vm_compute; reflexivity.
Defined.

(** C8, counterexample.  From the initial state a call with energy 60000
    inserts a source on panel 0 and sets the counter to 8.  The call that
    follows draws panel 7, yet its position was read before the draw: it
    lands on panel 0 again and merges into the source there.  Only [r]
    holds the fresh index. *)
Lemma addSource_next_call_same_panel :
  ∃ st1 st2,
    addSource_call Scenario.palette Scenario.layout
      (Scenario.beat 1 60000 (Scenario.draw 7)) initial_state = Ok st1 ∧
    count st1 = BEAT_COUNT ∧ r st1 = 0 ∧
    addSource_call Scenario.palette Scenario.layout
      (Scenario.beat 1 100 (Scenario.draw 7)) st1 = Ok st2 ∧
    r st2 = 7 ∧
    (λ s, (x s, y s)) <$> sources st2 =
      [(centroid_x (Scenario.panel 0), centroid_y (Scenario.panel 0))] ∧
    (centroid_x (Scenario.panel 7), centroid_y (Scenario.panel 7)) ≠
      (centroid_x (Scenario.panel 0), centroid_y (Scenario.panel 0)).
Proof.
  do 2 eexists.
  split; [vm_compute; reflexivity|].
  split; [vm_compute; reflexivity|].
  split; [vm_compute; reflexivity|].
  split; [vm_compute; reflexivity|].
  split; [vm_compute; reflexivity|].
  split; [vm_compute; reflexivity|].
  vm_compute. discriminate.
Qed.

(** *** Aging and pruning *)

Lemma prune_loop_filter i l :
  prune_loop i l = take i l ++ filter (λ s, too_old s = false) (drop i l).
Proof.
  funelim (prune_loop i l).
  - (* a source at index [i] *)
    pose proof (lookup_lt_Some _ _ _ H) as Hi.
    assert (Hlen : length (take i l) = i) by (rewrite length_take; lia).
    rewrite (drop_S _ _ _ H).
    destruct (too_old s) eqn:Hs.
    + rewrite H0. unfold removeSource. rewrite delete_take_drop.
      rewrite take_app_length', drop_app_length' by (symmetry; exact Hlen).
      rewrite filter_cons_False by congruence. reflexivity.
    + rewrite H1, filter_cons_True by assumption.
      rewrite (take_S_r _ _ _ H), <- app_assoc. reflexivity.
  - (* the end of the array *)
    assert (Hge : (length l ≤ i)%nat) by (apply lookup_ge_None; exact e).
    rewrite take_ge, drop_ge by lia. rewrite app_nil_r. reflexivity.
Qed.

(** The aging, then the pruning as a filter. *)
Lemma diffuseSources_filter (l : list source_t) :
  diffuseSources l =
    if decide (2 < length l)%nat
    then filter (λ s, too_old s = false) (age_source <$> l)
    else age_source <$> l.
Proof.
  unfold diffuseSources, MIN_SIMULTANEOUS_COLOURS.
  rewrite length_fmap.
  destruct (Z.ltb_spec 2 (Z.of_nat (length l)));
    destruct (decide (2 < length l)%nat); try lia; [|reflexivity].
  rewrite prune_loop_filter. reflexivity.
Qed.

(** C6.  [diffuseSources] first adds to every source's age its own speed,
    leaving the other fields alone.  Then, when more than two sources are
    in the pool, it removes exactly the sources whose age exceeds 15.0;
    with two sources or fewer it removes nothing. *)
Theorem diffuseSources_ages_then_prunes (l : list source_t) :
  (∀ s, diffusion_age (age_source s) = F32.add (diffusion_age s) (speed s) ∧
        speed (age_source s) = speed s ∧
        intensity (age_source s) = intensity s ∧
        (x (age_source s), y (age_source s)) = (x s, y s)) ∧
  (∀ s, too_old s = fltb (F64.of_int 15) (diffusion_age s)) ∧
  diffuseSources l =
    if decide (2 < length l)%nat
    then filter (λ s, too_old s = false) (age_source <$> l)
    else age_source <$> l.
Proof.
  split; [intros s; repeat split|]. split; [reflexivity|].
  apply diffuseSources_filter.
Qed.

Example diffuseSources_scenario_4 :
  let s := {| x := F32.zero; y := F32.zero; vx := F32.zero; vy := F32.zero;
              diffusion_age := F32.of_int 15; R := 200; G := 100; B := 50;
              intensity := F32.of_int 1; speed := flit 15 10; energy := 0 |} in
  let t := {| x := F32.of_int 87; y := F32.zero; vx := F32.zero; vy := F32.zero;
              diffusion_age := F32.zero; R := 200; G := 100; B := 50;
              intensity := F32.of_int 1; speed := flit 15 10; energy := 0 |} in
  too_old s = false ∧
  diffuseSources [t; s; t] = [age_source t; age_source t] ∧
  diffuseSources [s; t] = [age_source s; age_source t].
Proof. vm_compute. repeat split. Qed.

(** C7, as amended.  A pool with a source in it still has one after
    [diffuseSources] exactly when it holds at most two sources, or the age
    of one of its sources does not exceed 15.0 after the aging: the floor
    of two is tested once, before the removals. *)
Theorem diffuseSources_keeps_a_source (l : list source_t) :
  l ≠ [] →
  diffuseSources l ≠ [] ↔
  (length l ≤ 2)%nat ∨ (∃ s, s ∈ l ∧ too_old (age_source s) = false).
Proof.
  intros Hl. rewrite diffuseSources_filter.
  destruct (decide (2 < length l)%nat) as [Hlt|Hge].
  - split.
    + intros Hne. right.
      destruct (filter (λ s, too_old s = false) (age_source <$> l))
        as [|t k] eqn:Hf; [congruence|].
      assert (Hin : t ∈ filter (λ s, too_old s = false) (age_source <$> l))
        by (rewrite Hf; apply list_elem_of_here).
      apply list_elem_of_filter in Hin as [Hyoung Hin].
      apply list_elem_of_fmap in Hin as (s & -> & Hs). eauto.
    + intros [Hle | (s & Hs & Hyoung)]; [lia|]. intros Hnil.
      assert (Hin : age_source s
                    ∈ filter (λ s, too_old s = false) (age_source <$> l)).
      { apply list_elem_of_filter. split; [exact Hyoung|].
        apply list_elem_of_fmap. eauto. }
      rewrite Hnil in Hin. inversion Hin.
  - split; [intros _; left; lia|]. intros _.
    destruct l; [congruence | discriminate].
Qed.

Lemma diffuseSources_keeps_a_source_witness :
  ∃ st, Scenario.mixed_pool = Ok st ∧ sources st ≠ [] ∧
        diffuseSources (sources st) ≠ [].
Proof.
  eexists. split; [vm_compute; reflexivity|]. split; [discriminate|].
  apply diffuseSources_keeps_a_source; [discriminate|].
  right. eexists. split; [apply list_elem_of_here|]. vm_compute; reflexivity.
Defined.

(** C7, counterexample.  Three [addSource] calls with speed 16 leave three
    sources in the pool; one call of [diffuseSources] ages each of them to
    16 and, the pool holding more than two, removes all three. *)
Lemma diffuseSources_prunes_to_empty :
  ∃ st, Scenario.fast_pool = Ok st ∧ nSources st = 3 ∧
        sources st ≠ [] ∧ diffuseSources (sources st) = [].
Proof.
  eexists. split; [vm_compute; reflexivity|].
  split; [vm_compute; reflexivity|].
  split; [discriminate | vm_compute; reflexivity].
Qed.

(** *** The tick *)

Section Tick.
Variable pal : list RGB_t.
Variable lay : list Panel.
Variable RGBtoHSV : RGB_t → HSV_t.
Variable HSVtoRGB : HSV_t → RGB_t.

Lemma bind_fault_inv {A B} (m : result A) (k : A → result B) f :
  m ≫= k = Fault f → m = Fault f ∨ ∃ a, m = Ok a ∧ k a = Fault f.
Proof. destruct m as [a|f']; simpl; [eauto | intros [= ->]; auto]. Qed.

Lemma index_fault {A} (a : list A) i f : index a i = Fault f → f = OutOfBounds.
Proof.
  unfold index. destruct (0 <=? i); [destruct (a !! Z.to_nat i)|]; congruence.
Qed.

Lemma int_add_fault a b f : int_add a b = Fault f → f = SignedOverflow.
Proof. unfold int_add. destruct (int_range (a + b)); congruence. Qed.

Lemma int_add_Ok a b c : int_add a b = Ok c → c = a + b ∧ INT_MIN ≤ c ≤ INT_MAX.
Proof.
  unfold int_add, int_range. destruct (Z.leb_spec INT_MIN (a + b));
    destruct (Z.leb_spec (a + b) INT_MAX); simpl; intros [=]; lia.
Qed.

(** The only division by zero is by a zero divisor. *)
Lemma int_div_fault a b : int_div a b = Fault DivByZero → b = 0.
Proof.
  unfold int_div. destruct (Z.eqb_spec b 0); [auto|].
  destruct (int_range (a ÷ b)); congruence.
Qed.

Lemma strongest_bin_fault bins ix : ∀ m mi f,
  strongest_bin bins ix m mi = Fault f → f = OutOfBounds.
Proof.
  induction ix as [|i ix IH]; intros m mi f; simpl; [congruence|].
  intros H. apply bind_fault_inv in H as [H | (b & _ & H)].
  - eapply index_fault; eassumption.
  - destruct (m <? b); eapply IH; eassumption.
Qed.

Lemma getRGB_fault colour f : getRGB pal colour = Fault f → f = OutOfBounds.
Proof.
  unfold getRGB.
  destruct (nColours pal =? 0); [congruence|].
  destruct (nColours pal =? 1).
  { intros H. apply bind_fault_inv in H as [H | (c & _ & H)];
      [eapply index_fault; eassumption | congruence]. }
  intros H. apply bind_fault_inv in H as [H | ([[fR fG] fB] & _ & H)]; [|congruence].
  destruct (fleb colour (F32.of_int 0));
    [|destruct (to_int colour <? nColours pal - 1)].
  - apply bind_fault_inv in H as [H | (c & _ & H)];
      [eapply index_fault; eassumption | congruence].
  - apply bind_fault_inv in H as [H | (c1 & _ & H)];
      [eapply index_fault; eassumption |].
    apply bind_fault_inv in H as [H | (c2 & _ & H)];
      [eapply index_fault; eassumption | congruence].
  - apply bind_fault_inv in H as [H | (c & _ & H)];
      [eapply index_fault; eassumption | congruence].
Qed.

Lemma addSource_fault colour i sp e u st f :
  addSource pal lay colour i sp e u st = Fault f → f = OutOfBounds.
Proof.
  unfold addSource. intros H.
  apply bind_fault_inv in H as [H | (p & _ & H)];
    [eapply index_fault; eassumption |].
  destruct (BEAT_COUNT <=? count st + 1);
    (apply bind_fault_inv in H as [H | ([[cR cG] cB] & _ & H)];
      [eapply getRGB_fault; eassumption |]);
    destruct (merge_loop _ _ _ _ _); congruence.
Qed.

(** The divisor of the beat branch is [n + 1]: a tick can only divide by
    zero from a state with [n = -1]. *)
Lemma getPluginFrame_div_fault a st :
  getPluginFrame pal lay RGBtoHSV HSVtoRGB a st = Fault DivByZero →
  n st + 1 = 0.
Proof.
  unfold getPluginFrame. intros H.
  apply bind_fault_inv in H as [H | (mi & _ & H)];
    [apply strongest_bin_fault in H; congruence|].
  apply bind_fault_inv in H as [H | (sum & _ & H)];
    [apply int_add_fault in H; congruence|].
  apply bind_fault_inv in H as [H | (n1 & Hn1 & H)];
    [apply int_add_fault in H; congruence|].
  apply int_add_Ok in Hn1 as [-> _].
  apply bind_fault_inv in H as [H | (st1 & _ & H)]; [|congruence].
  destruct (getIsBeat a).
  - apply bind_fault_inv in H as [H | (avg & _ & H)].
    + apply int_div_fault in H. exact H.
    + apply addSource_fault in H. congruence.
  - destruct (getIsOnset a); [apply addSource_fault in H|]; congruence.
Qed.

(** After a tick [n] is zero (a beat) or one more than before. *)
Lemma getPluginFrame_n a st frames st' :
  getPluginFrame pal lay RGBtoHSV HSVtoRGB a st = Ok (frames, st') →
  n st' = if getIsBeat a then 0 else n st + 1.
Proof.
  unfold getPluginFrame. intros H.
  apply bind_Ok_inv in H as (mi & _ & H).
  apply bind_Ok_inv in H as (sum & _ & H).
  apply bind_Ok_inv in H as (n1 & Hn1 & H).
  apply int_add_Ok in Hn1 as [-> _].
  apply bind_Ok_inv in H as (st1 & Hst1 & H).
  injection H as _ <-. simpl.
  destruct (getIsBeat a).
  - apply bind_Ok_inv in Hst1 as (avg & _ & Hst1).
    apply addSource_Ok_inv in Hst1 as (? & ? & ? & ? & _ & _ & _ & Hn & _).
    exact Hn.
  - destruct (getIsOnset a).
    + apply addSource_Ok_inv in Hst1 as (? & ? & ? & ? & _ & _ & _ & Hn & _).
      exact Hn.
    + injection Hst1 as <-. reflexivity.
Qed.

Lemma run_ticks_n_nonneg fs : ∀ st st',
  0 ≤ n st →
  run_ticks pal lay RGBtoHSV HSVtoRGB fs st = Ok st' →
  0 ≤ n st'.
Proof.
  induction fs as [|a fs IH]; intros st st' Hn; simpl.
  - intros [= <-]. exact Hn.
  - intros H. apply bind_Ok_inv in H as ([frames st1] & H1 & H).
    apply (IH st1); [|exact H].
    rewrite (getPluginFrame_n _ _ _ _ H1). destruct (getIsBeat a); lia.
Qed.

(** C10.  In every state that ticks lead to from the initial state, [n] is
    not negative; the tick increments it before the beat branch divides
    by it, so the divisor [n + 1] is strictly positive and no tick, the
    first one and the one after a beat included, divides by zero. *)
Theorem getPluginFrame_never_divides_by_zero fs st a :
  run_ticks pal lay RGBtoHSV HSVtoRGB fs initial_state = Ok st →
  0 < n st + 1 ∧
  getPluginFrame pal lay RGBtoHSV HSVtoRGB a st ≠ Fault DivByZero.
Proof.
  intros Hrun.
  assert (Hn : 0 ≤ n st).
  { apply (run_ticks_n_nonneg fs initial_state); [simpl; lia | exact Hrun]. }
  split; [lia|].
  intros Hdiv. apply getPluginFrame_div_fault in Hdiv. lia.
Qed.

End Tick.

(** Three ticks of the scenario, a beat among them. *)
Lemma getPluginFrame_never_divides_by_zero_witness :
  ∃ st, run_ticks Scenario.palette Scenario.layout
          Scenario.RGBtoHSV Scenario.HSVtoRGB
          [Scenario.tick false false 0 100; Scenario.tick true false 0 100;
           Scenario.tick false true 0 100] initial_state = Ok st ∧
        n st = 1 ∧
        getPluginFrame Scenario.palette Scenario.layout
          Scenario.RGBtoHSV Scenario.HSVtoRGB
          (Scenario.tick true false 0 100) st ≠ Fault DivByZero.
Proof.
  eexists. split; [vm_compute; reflexivity|]. split; [reflexivity|].
  refine (proj2 (getPluginFrame_never_divides_by_zero
                   Scenario.palette Scenario.layout
                   Scenario.RGBtoHSV Scenario.HSVtoRGB
                   [Scenario.tick false false 0 100; Scenario.tick true false 0 100;
                    Scenario.tick false true 0 100] _ _ _)).
  vm_compute; reflexivity.
Defined.

(** The fault is not an idle case of the model: a beat tick from a state
    with [n = -1] does divide by zero. *)
Example getPluginFrame_divides_by_zero_at_minus_one :
  getPluginFrame Scenario.palette Scenario.layout
    Scenario.RGBtoHSV Scenario.HSVtoRGB (Scenario.tick true false 0 100)
    {| sources := []; r := 0; count := 0; maxBinIndexSum := 0; n := -1 |}
  = Fault DivByZero.
Proof. vm_compute. reflexivity. Qed.

Section Beat.
Variable pal : list RGB_t.
Variable lay : list Panel.
Variable RGBtoHSV : RGB_t → HSV_t.
Variable HSVtoRGB : HSV_t → RGB_t.

(** The call a beat tick makes: the intensity is [1.0] and the speed is the
    literal [1.5], whatever the tempo. *)
Lemma getPluginFrame_beat_call a st frames st' :
  getIsBeat a = true →
  getPluginFrame pal lay RGBtoHSV HSVtoRGB a st = Ok (frames, st') →
  ∃ colour st1,
    addSource pal lay (F32.of_int colour) (F32.of_int 1) (flit 15 10)
      (getEnergy a) (drand48_panel a)
      {| sources := sources st; r := r st; count := count st;
         maxBinIndexSum := 0; n := 0 |} = Ok st1 ∧
    st' = set_sources st1 (diffuseSources (sources st1)).
Proof.
  unfold getPluginFrame. intros Hbeat H. rewrite Hbeat in H.
  apply bind_Ok_inv in H as (mi & _ & H).
  apply bind_Ok_inv in H as (sum & _ & H).
  apply bind_Ok_inv in H as (n1 & _ & H).
  apply bind_Ok_inv in H as (st1 & Hst1 & H).
  apply bind_Ok_inv in Hst1 as (avg & _ & Hst1).
  injection H as _ <-. eauto.
Qed.

(** The tempo has no influence on a tick. *)
Lemma getPluginFrame_ignores_tempo bins e isBeat isOnset tempo tempo' uc up st :
  getPluginFrame pal lay RGBtoHSV HSVtoRGB
    (mkFeatures bins e isBeat isOnset tempo uc up) st =
  getPluginFrame pal lay RGBtoHSV HSVtoRGB
    (mkFeatures bins e isBeat isOnset tempo' uc up) st.
Proof.
  unfold getPluginFrame.
  cbn [getFftBins getEnergy getIsBeat getIsOnset getTempo
       drand48_colour drand48_panel].
  cbv zeta. reflexivity.
Qed.

End Beat.

(** C1, at the failing input.  A beat tick with tempo 100 from the initial
    state: the tick computes the speed [max(0.2, 100/50) = 2.0], yet the
    source it spawns has speed 1.5 (and, after the aging of the same tick,
    age 1.5). *)
Theorem getPluginFrame_beat_speed_is_literal :
  ∃ frames st s,
    getPluginFrame Scenario.palette Scenario.layout
      Scenario.RGBtoHSV Scenario.HSVtoRGB
      (Scenario.tick true false 0 100) initial_state = Ok (frames, st) ∧
    sources st = [s] ∧
    beat_speed 100 = F32.of_int 2 ∧
    speed s = flit 15 10 ∧
    diffusion_age s = flit 15 10 ∧
    speed s ≠ beat_speed 100.
Proof.
  do 3 eexists.
  split; [vm_compute; reflexivity|].
  split; [reflexivity|].
  split; [vm_compute; reflexivity|].
  split; [vm_compute; reflexivity|].
  split; [vm_compute; reflexivity|].
  vm_compute. discriminate.
Qed.

(** *** The palette *)

Section Palette.
Variable pal : list RGB_t.

Lemma index_lookup_Ok {A} (a : list A) (i : Z) v :
  0 ≤ i → a !! Z.to_nat i = Some v → index a i = Ok v.
Proof. intros. apply index_Ok_lookup. auto. Qed.

(** A stop goes through [float] and back unchanged. *)
Lemma stop_exact c :
  rgb_ok c →
  (to_int (F32.of_int (rgb_R c)), to_int (F32.of_int (rgb_G c)),
   to_int (F32.of_int (rgb_B c))) = (rgb_R c, rgb_G c, rgb_B c).
Proof. intros (HR & HG & HB). rewrite !F32_of_int_exact by assumption. reflexivity. Qed.

(** C5, as amended.  [getRGB] returns (128,128,128) on the empty palette
    and the only stop of a palette of one, whatever the index.  On a
    longer palette of colour stops it returns stop 0 when [colour <= 0];
    for a positive index whose floor [idx] fits an [int] it returns the
    last stop when [idx >= nColours - 1] and otherwise, per channel, the
    truncation of [(1 - frac) * C[idx] + frac * C[idx+1]] with
    [frac = colour - idx]. *)
Theorem getRGB_interpolates (colour : float) :
  Forall rgb_ok pal →
  (pal = [] → getRGB pal colour = Ok (128, 128, 128)) ∧
  (∀ c, pal = [c] → getRGB pal colour = Ok (rgb_R c, rgb_G c, rgb_B c)) ∧
  (2 ≤ nColours pal →
   (fleb colour (F32.of_int 0) = true →
    ∃ c, pal !! 0%nat = Some c ∧
         getRGB pal colour = Ok (rgb_R c, rgb_G c, rgb_B c)) ∧
   (∀ idx,
      fleb colour (F32.of_int 0) = false →
      SFfloor colour = Some idx →
      idx ≤ INT_MAX →
      (nColours pal - 1 ≤ idx →
       ∃ c, pal !! (length pal - 1)%nat = Some c ∧
            getRGB pal colour = Ok (rgb_R c, rgb_G c, rgb_B c)) ∧
      (idx < nColours pal - 1 →
       ∃ c1 c2,
         pal !! Z.to_nat idx = Some c1 ∧
         pal !! S (Z.to_nat idx) = Some c2 ∧
         let frac := F32.sub colour (F32.of_int idx) in
         getRGB pal colour =
         Ok (to_int (lerp frac (F32.of_int (rgb_R c1)) (F32.of_int (rgb_R c2))),
             to_int (lerp frac (F32.of_int (rgb_G c1)) (F32.of_int (rgb_G c2))),
             to_int (lerp frac (F32.of_int (rgb_B c1)) (F32.of_int (rgb_B c2))))))).
Proof.
  intros Hpal. split; [intros ->; reflexivity|].
  split; [intros c ->; reflexivity|].
  intros Hn. unfold getRGB.
  destruct (Z.eqb_spec (nColours pal) 0); [lia|].
  destruct (Z.eqb_spec (nColours pal) 1); [lia|].
  assert (Hok : ∀ k c, pal !! k = Some c → rgb_ok c).
  { intros k c Hk. eapply Forall_lookup_1; eassumption. }
  unfold nColours in *.
  split.
  - intros Hle. rewrite Hle.
    destruct (lookup_lt_is_Some_2 pal 0%nat) as [c Hc]; [lia|].
    exists c. split; [exact Hc|].
    rewrite (index_lookup_Ok pal 0 c) by (auto; lia). simpl.
    rewrite (stop_exact c) by eauto. reflexivity.
  - intros idx Hgt Hfloor Hmax. rewrite Hgt.
    destruct colour as [s|s| |s m e]; try (discriminate Hfloor).
    { (* a zero is not positive *) vm_compute in Hgt. discriminate Hgt. }
    pose proof (fleb_zero_false _ _ _ Hgt) as ->.
    destruct (to_int_floor _ _ _ Hfloor) as [H0 Hidx].
    rewrite (Hidx Hmax). split.
    + intros Hlast.
      destruct (Z.ltb_spec idx (Z.of_nat (length pal) - 1)); [lia|].
      destruct (lookup_lt_is_Some_2 pal (length pal - 1)%nat) as [c Hc]; [lia|].
      exists c. split; [exact Hc|].
      rewrite (index_lookup_Ok pal (Z.of_nat (length pal) - 1) c); [|lia|].
      * simpl. rewrite (stop_exact c) by eauto. reflexivity.
      * replace (Z.to_nat (Z.of_nat (length pal) - 1)) with (length pal - 1)%nat
          by lia. exact Hc.
    + intros Hmid.
      destruct (Z.ltb_spec idx (Z.of_nat (length pal) - 1)); [|lia].
      destruct (lookup_lt_is_Some_2 pal (Z.to_nat idx)) as [c1 Hc1]; [lia|].
      destruct (lookup_lt_is_Some_2 pal (S (Z.to_nat idx))) as [c2 Hc2]; [lia|].
      exists c1, c2. split; [exact Hc1|]. split; [exact Hc2|].
      rewrite (index_lookup_Ok pal idx c1) by assumption. simpl.
      rewrite (index_lookup_Ok pal (idx + 1) c2); [reflexivity|lia|].
      replace (Z.to_nat (idx + 1)) with (S (Z.to_nat idx)) by lia. exact Hc2.
Qed.

End Palette.

(** On the palette of the scenario the index 1.5 lies halfway between the
    green and the blue stop. *)
Lemma getRGB_interpolates_witness :
  Forall rgb_ok Scenario.palette ∧
  getRGB Scenario.palette (flit 15 10) = Ok (0, 127, 127).
Proof.
  assert (Hpal : Forall rgb_ok Scenario.palette)
    by (repeat constructor; unfold channel_ok; simpl; lia).
  split; [exact Hpal|].
  destruct (getRGB_interpolates Scenario.palette (flit 15 10) Hpal)
    as (_ & _ & H).
  destruct H as (_ & H); [vm_compute; discriminate|].
  destruct (H 1) as (_ & Hmid);
    [vm_compute; reflexivity | vm_compute; reflexivity
    | vm_compute; discriminate |].
  destruct Hmid as (c1 & c2 & Hc1 & Hc2 & Heq); [vm_compute; reflexivity|].
  vm_compute in Hc1. injection Hc1 as <-.
  vm_compute in Hc2. injection Hc2 as <-.
  rewrite Heq. vm_compute. reflexivity.
Defined.

(** C5, counterexample.  On the palette of the scenario the index 3e9 is a
    [float] whose floor lies far above the last index 2, but no [int]
    holds it: [(int)colour] yields [INT_MIN], the test
    [idx < nColours - 1] passes and [paletteColours[idx]] is read outside
    the palette, instead of the last stop.  The same happens at [2^31],
    the first index beyond [int]. *)
Lemma getRGB_beyond_int_range :
  let colour := F32.of_int 3000000000 in
  SFfloor colour = Some 3000000000 ∧
  fleb colour (F32.of_int 0) = false ∧
  nColours Scenario.palette - 1 ≤ 3000000000 ∧
  Scenario.palette !! 2%nat = Some (mkRGB 0 0 255) ∧
  to_int colour = INT_MIN ∧
  getRGB Scenario.palette colour = Fault OutOfBounds ∧
  getRGB Scenario.palette colour ≠ Ok (0, 0, 255) ∧
  SFfloor (F32.of_int (2 ^ 31)) = Some (2 ^ 31) ∧
  getRGB Scenario.palette (F32.of_int (2 ^ 31)) = Fault OutOfBounds.
Proof.
  cbv zeta.
  split; [vm_compute; reflexivity|].
  split; [vm_compute; reflexivity|].
  split; [vm_compute; intros [=]|].
  split; [vm_compute; reflexivity|].
  split; [vm_compute; reflexivity|].
  split; [vm_compute; reflexivity|].
  split; [vm_compute; intros [=]|].
  split; vm_compute; reflexivity.
Qed.

(** *** Rendering *)

Section Render.
Variable RGBtoHSV : RGB_t → HSV_t.
Variable HSVtoRGB : HSV_t → RGB_t.

Lemma render_step_held px py C s :
  (∀ h, rgb_ok (HSVtoRGB h)) →
  held (render_step RGBtoHSV HSVtoRGB px py C s).
Proof.
  intros Hrange. destruct C as [[fR fG] fB]. unfold render_step.
  eexists. split; [apply Hrange | reflexivity].
Qed.

Lemma render_loop_held px py l : ∀ C,
  (∀ h, rgb_ok (HSVtoRGB h)) →
  held C →
  held (foldl (render_step RGBtoHSV HSVtoRGB px py) C l).
Proof.
  induction l as [|s l IH]; intros C Hrange HC; simpl; [exact HC|].
  apply IH; [exact Hrange|]. apply render_step_held, Hrange.
Qed.

Lemma clamp255_range c : 0 ≤ c → 0 ≤ clamp255 c ≤ 255.
Proof. unfold clamp255. destruct (Z.ltb_spec 255 c); lia. Qed.


(** Scenario 1 of the specification: an empty pool renders black. *)
Lemma renderPanel_empty panel :
  renderPanel RGBtoHSV HSVtoRGB panel [] = (0, 0, 0).
Proof. reflexivity. Qed.

End Render.

(** The stand-in conversion of the scenario has the assumed range. *)
Lemma Scenario_HSVtoRGB_range h : rgb_ok (Scenario.HSVtoRGB h).
Proof.
  unfold Scenario.HSVtoRGB, Scenario.sat, rgb_ok, channel_ok.
  set (hh := hsv_H h `mod` 360).
  set (s := Z.max 0 (Z.min 100 (hsv_S h))).
  set (v := (Z.max 0 (Z.min 359 (hsv_V h)) * 255) `div` 100).
  set (chroma := (v * s) `div` 100).
  set (k := 60 - Z.abs (hh `mod` 120 - 60)).
  assert (Hs : 0 ≤ s ≤ 100) by (unfold s; lia).
  assert (Hv : 0 ≤ v ≤ 916).
  { unfold v. split; [apply Z.div_pos; lia|].
    apply Z.div_le_upper_bound; lia. }
  assert (Hc : 0 ≤ chroma ≤ v).
  { unfold chroma. split; [apply Z.div_pos; nia|].
    apply Z.div_le_upper_bound; nia. }
  assert (Hk : 0 ≤ k ≤ 60).
  { unfold k. pose proof (Z.mod_pos_bound hh 120). lia. }
  assert (Hx : 0 ≤ (chroma * k) `div` 60 ≤ chroma).
  { split; [apply Z.div_pos; nia|]. apply Z.div_le_upper_bound; nia. }
  destruct (hh `div` 60) as [|[[[]|[]|]|[[]|[]|]|]|]; simpl; lia.
Qed.


(** *** The ordering on the insertion path *)

Ltac compare_cases :=
  repeat match goal with
  | H : context [Z.compare ?a ?b] |- _ => destruct (Z.compare_spec a b)
  | |- context [Z.compare ?a ?b] => destruct (Z.compare_spec a b)
  | H : context [Pos.compare_cont Eq ?a ?b] |- _ =>
      change (Pos.compare_cont Eq a b) with (Pos.compare a b) in *;
      destruct (Pos.compare_spec a b)
  | |- context [Pos.compare_cont Eq ?a ?b] =>
      change (Pos.compare_cont Eq a b) with (Pos.compare a b) in *;
      destruct (Pos.compare_spec a b)
  end.

Lemma SFcompare_swap a b : SFcompare b a = CompOpp <$> SFcompare a b.
Proof.
  destruct a as [sa|sa| |sa ma ea], b as [sb|sb| |sb mb eb]; simpl;
    try reflexivity;
    try (destruct sa; reflexivity); try (destruct sb; reflexivity);
    try (destruct sa, sb; reflexivity).
  destruct sa, sb; simpl; try reflexivity; compare_cases; simpl;
    try reflexivity; try lia.
Qed.

Lemma SFleb_trans a b c :
  SFleb a b = true → SFleb b c = true → SFleb a c = true.
Proof.
  unfold SFleb.
  destruct a as [sa|sa| |sa ma ea], b as [sb|sb| |sb mb eb],
    c as [sc|sc| |sc mc ec]; simpl; try discriminate; try reflexivity.
  all: try (destruct sa; simpl; try discriminate; try reflexivity;
            destruct sb; simpl; try discriminate; try reflexivity;
            destruct sc; simpl; try discriminate; try reflexivity; fail).
  all: try (destruct sa, sb; simpl; try discriminate; try reflexivity; fail).
  all: try (destruct sb, sc; simpl; try discriminate; try reflexivity; fail).
  all: try (destruct sa, sc; simpl; try discriminate; try reflexivity; fail).
  all: destruct sa, sb, sc; simpl; try discriminate; try reflexivity;
    intros H1 H2; compare_cases; simpl in *;
    try discriminate; try reflexivity; try lia.
Qed.

Lemma fleb_trans a b c : fleb a b = true → fleb b c = true → fleb a c = true.
Proof. apply SFleb_trans. Qed.

(** Two numbers that compare are ordered one way or the other. *)
Lemma fleb_total a b : fcmp a b ≠ None → fleb b a = false → fleb a b = true.
Proof.
  unfold fleb, fcmp. rewrite (SFcompare_swap (to_double a) (to_double b)).
  destruct (SFcompare (to_double a) (to_double b)) as [[]|]; simpl; congruence.
Qed.

Lemma ordered_tail s l : ordered (s :: l) → ordered l.
Proof.
  intros H i j si sj Hij Hi Hj. apply (H (S i) (S j)); [lia | assumption..].
Qed.

Lemma ordered_evict l : ordered l → ordered (evict_if_full l).
Proof.
  unfold evict_if_full, removeSource. intros H.
  destruct (MAX_SOURCES <=? Z.of_nat (length l)); [|exact H].
  destruct l as [|s l]; [exact H|]. simpl. eapply ordered_tail, H.
Qed.

(** Where the second loop stops: every source from the slot on is not
    below the new intensity, and the source in front of the slot is. *)
Lemma insert_index_spec i0 l (len : nat) :
  (∀ j s, (insert_index i0 l len ≤ j < len)%nat → l !! j = Some s →
     fleb (intensity s) i0 = false) ∧
  (∀ s, (0 < insert_index i0 l len)%nat →
     l !! (insert_index i0 l len - 1)%nat = Some s →
     fleb (intensity s) i0 = true).
Proof.
  induction len as [|len IH]; simpl.
  - split; intros; lia.
  - destruct IH as [IH1 IH2]. destruct (l !! len) as [t|] eqn:Hn.
    + destruct (fleb (intensity t) i0) eqn:Ht.
      * split; [intros; lia|]. intros s _. simpl. rewrite Nat.sub_0_r, Hn.
        intros [= <-]. exact Ht.
      * split; [|exact IH2]. intros j s Hj Hs.
        destruct (decide (j = len)) as [->|]; [congruence|].
        apply (IH1 j); [lia | exact Hs].
    + split; [|exact IH2]. intros j s Hj Hs.
      destruct (decide (j = len)) as [->|]; [congruence|].
      apply (IH1 j); [lia | exact Hs].
Qed.

Lemma lookup_inserted {A} (l : list A) k s j :
  (k ≤ length l)%nat →
  (take k l ++ s :: drop k l) !! j =
  if decide (j < k)%nat then l !! j
  else if decide (j = k) then Some s else l !! (j - 1)%nat.
Proof.
  intros Hk. assert (Hlen : length (take k l) = k) by (rewrite length_take; lia).
  destruct (decide (j < k)%nat).
  - rewrite lookup_app_l by lia. apply lookup_take_lt; lia.
  - rewrite lookup_app_r by lia. rewrite Hlen.
    destruct (decide (j = k)) as [->|].
    + rewrite Nat.sub_diag. reflexivity.
    + destruct (j - k)%nat as [|d] eqn:Hd; [lia|]. simpl.
      rewrite lookup_drop. f_equal. lia.
Qed.

(** The insertion into an ordered pool, of an intensity that compares with
    those in the pool, leaves the pool ordered. *)
Lemma inserted_ordered (l : list source_t) (s : source_t) :
  ordered l →
  Forall (λ t, fcmp (intensity s) (intensity t) ≠ None) l →
  let k := insert_index (intensity s) l (length l) in
  ordered (take k l ++ s :: drop k l).
Proof.
  intros Hord Hcmp k.
  pose proof (insert_index_le (intensity s) l (length l)) as Hk.
  destruct (insert_index_spec (intensity s) l (length l)) as [Habove Hbelow].
  fold k in Hk, Habove, Hbelow.
  intros i j si sj Hij. rewrite !lookup_inserted by exact Hk.
  destruct (decide (i < k)%nat) as [Hik|Hik].
  - intros Hi. destruct (decide (j < k)%nat) as [Hjk|Hjk].
    + intros Hj. apply (Hord i j); [lia | assumption..].
    + assert (Hnew : fleb (intensity si) (intensity s) = true).
      { destruct (lookup_lt_is_Some_2 l (k - 1)%nat) as [t Ht]; [lia|].
        pose proof (Hbelow t ltac:(lia) Ht) as Htle.
        destruct (decide (i = k - 1)%nat) as [->|]; [congruence|].
        eapply fleb_trans; [|exact Htle].
        apply (Hord i (k - 1)%nat); [lia | assumption..]. }
      destruct (decide (j = k)) as [->|]; [intros [= <-]; exact Hnew|].
      intros Hj. apply (Hord i (j - 1)%nat); [lia | assumption..].
  - destruct (decide (i = k)) as [->|].
    + intros [= <-]. destruct (decide (j < k)%nat); [lia|].
      destruct (decide (j = k)); [lia|]. intros Hj.
      apply fleb_total.
      * eapply (proj1 (Forall_lookup _ _) Hcmp). exact Hj.
      * apply (Habove (j - 1)%nat); [|exact Hj].
        apply lookup_lt_Some in Hj. lia.
    + intros Hi. destruct (decide (j < k)%nat); [lia|].
      destruct (decide (j = k)); [lia|]. intros Hj.
      apply (Hord (i - 1)%nat (j - 1)%nat); [lia | assumption..].
Qed.

Section Ordering.
Variable pal : list RGB_t.
Variable lay : list Panel.

Lemma Forall_evict (P : source_t → Prop) l : Forall P l → Forall P (evict_if_full l).
Proof.
  unfold evict_if_full, removeSource. intros H.
  destruct (MAX_SOURCES <=? Z.of_nat (length l)); [|exact H].
  destruct l as [|s l]; [exact H|]. simpl. inversion H; assumption.
Qed.

(** X1.  The other path of [addSource]: a call that inserts keeps an
    ordered pool ordered, the eviction included.  (The intensity has to
    compare with those in the pool: no NaN.) *)
Lemma addSource_insert_keeps_ordering colour i sp e u st st' p :
  index lay (r st) = Ok p →
  Forall (λ s, same_position (centroid_x p) (centroid_y p) s = false)
    (evict_if_full (sources st)) →
  Forall (λ t, fcmp i (intensity t) ≠ None) (sources st) →
  ordered (sources st) →
  addSource pal lay colour i sp e u st = Ok st' →
  ordered (sources st').
Proof.
  intros Hp Hfree Hcmp Hord Hcall.
  apply (merge_loop_None _ _ i sp) in Hfree.
  apply addSource_Ok_inv in Hcall
    as (p' & cR & cG & cB & Hp' & _ & _ & _ & _ & Hcase).
  rewrite Hp in Hp'. injection Hp' as <-.
  destruct Hcase as [(l' & Hm & _) | (_ & (k & s & -> & -> & Hs) & _)];
    [congruence|].
  destruct Hs as (_ & _ & _ & <- & _).
  apply inserted_ordered; [apply ordered_evict, Hord|].
  apply Forall_evict, Hcmp.
Qed.

End Ordering.

(** * Further properties *)

(** *** Relations between all pairs of a list *)

Lemma pairwise_sublist {A} (Rel : A → A → Prop) (l1 l2 : list A) :
  l1 `sublist_of` l2 → pairwise Rel l2 → pairwise Rel l1.
Proof.
  induction 1 as [|a l1 l2 Hsub IH|a l1 l2 Hsub IH]; simpl; [auto| |tauto].
  intros [Ha Hl]. split; [|auto].
  clear IH Hl. induction Hsub; inversion Ha; subst; auto.
Qed.

Lemma pairwise_fmap {A B} (f : A → B) (Rel : B → B → Prop) (l : list A) :
  pairwise Rel (f <$> l) ↔ pairwise (λ a b, Rel (f a) (f b)) l.
Proof.
  induction l as [|a l IH]; simpl; [tauto|].
  split; intros [Ha Hl]; (split; [|apply IH; exact Hl]).
  - apply (proj1 (Forall_fmap f (Rel (f a)) l)) in Ha. exact Ha.
  - apply (proj2 (Forall_fmap f (Rel (f a)) l)). exact Ha.
Qed.

Lemma pairwise_app {A} (Rel : A → A → Prop) (l1 l2 : list A) :
  pairwise Rel (l1 ++ l2) ↔
  pairwise Rel l1 ∧ pairwise Rel l2 ∧ Forall (λ a, Forall (Rel a) l2) l1.
Proof.
  induction l1 as [|a l1 IH]; simpl.
  - split; [auto | tauto].
  - split.
    + intros [Ha Hl]. apply Forall_app in Ha as [Ha1 Ha2].
      apply IH in Hl as (H1 & H2 & H12).
      repeat split; try assumption. constructor; assumption.
    + intros ([Ha1 H1] & H2 & H12). inversion H12 as [|? ? Ha2 H12']; subst.
      split; [apply Forall_app; auto | apply IH; auto].
Qed.

Lemma pairwise_lookup {A} (Rel : A → A → Prop) (l : list A) :
  pairwise Rel l ↔
  ∀ i j a b, (i < j)%nat → l !! i = Some a → l !! j = Some b → Rel a b.
Proof.
  induction l as [|c l IH]; simpl.
  - split; [intros _ i j a b _ Hi; destruct i; discriminate | auto].
  - rewrite IH, Forall_lookup. split.
    + intros [Hc Hl] i j a b Hij Hi Hj.
      destruct j as [|j]; [lia|]. simpl in Hj.
      destruct i as [|i]; simpl in Hi.
      * injection Hi as <-. eapply Hc, Hj.
      * apply (Hl i j); [lia | assumption..].
    + intros H. split.
      * intros j b Hj. apply (H 0%nat (S j)); [lia | reflexivity | exact Hj].
      * intros i j a b Hij Hi Hj. apply (H (S i) (S j)); [lia | assumption..].
Qed.

Lemma ordered_pairwise l :
  ordered l ↔ pairwise (λ s t, fleb (intensity s) (intensity t) = true) l.
Proof. rewrite pairwise_lookup. reflexivity. Qed.

(** *** The pool across calls *)

Lemma feqb_sym a b : feqb a b = feqb b a.
Proof.
  unfold feqb, fcmp. rewrite (SFcompare_swap (to_double a) (to_double b)).
  destruct (SFcompare (to_double a) (to_double b)) as [[]|]; reflexivity.
Qed.

Lemma apart_sym s t : apart s t → apart t s.
Proof.
  unfold apart, same_position. rewrite (feqb_sym (x t)), (feqb_sym (y t)). auto.
Qed.

Lemma sublist_Forall_l {A} (P : A → Prop) (l1 l2 : list A) :
  l1 `sublist_of` l2 → Forall P l2 → Forall P l1.
Proof.
  induction 1 as [|a l1 l2 Hsub IH|a l1 l2 Hsub IH]; intros HP;
    [constructor|inversion HP; subst; auto..].
Qed.

Lemma distinct_evict l : distinct_positions l → distinct_positions (evict_if_full l).
Proof.
  unfold evict_if_full, removeSource, distinct_positions.
  destruct (MAX_SOURCES <=? Z.of_nat (length l)); [|auto].
  apply pairwise_sublist, sublist_delete.
Qed.

(** The merge leaves every source where it is. *)
Lemma distinct_merged l k s i sp :
  l !! k = Some s →
  distinct_positions l →
  distinct_positions (<[k := merged s i sp]> l).
Proof.
  unfold distinct_positions. rewrite !pairwise_lookup. intros Hk H.
  assert (Hpos : ∀ j a, (<[k := merged s i sp]> l) !! j = Some a →
            ∃ a0, l !! j = Some a0 ∧ x a = x a0 ∧ y a = y a0).
  { intros j a Hj. destruct (decide (j = k)) as [->|Hne].
    - rewrite list_lookup_insert_eq in Hj by (eapply lookup_lt_Some; eassumption).
      injection Hj as <-. exists s. auto.
    - rewrite list_lookup_insert_ne in Hj by congruence. exists a. auto. }
  intros j1 j2 a b Hlt Ha Hb.
  apply Hpos in Ha as (a0 & Ha0 & Hax & Hay).
  apply Hpos in Hb as (b0 & Hb0 & Hbx & Hby).
  pose proof (H j1 j2 a0 b0 Hlt Ha0 Hb0) as Hab.
  unfold apart, same_position in *. rewrite Hax, Hay, Hbx, Hby. exact Hab.
Qed.

(** The insertion of a source on a free position. *)
Lemma distinct_inserted l k s :
  distinct_positions l →
  Forall (λ t, same_position (x s) (y s) t = false) l →
  distinct_positions (take k l ++ s :: drop k l).
Proof.
  unfold distinct_positions. intros Hl Hfree.
  rewrite <- (take_drop k l) in Hl. apply pairwise_app in Hl as (H1 & H2 & H12).
  apply pairwise_app. split; [exact H1|]. split.
  - simpl. split; [|exact H2].
    eapply sublist_Forall_l; [apply sublist_drop | exact Hfree].
  - assert (Hfree1 : Forall (λ t, same_position (x s) (y s) t = false) (take k l))
      by (eapply sublist_Forall_l; [apply sublist_take | exact Hfree]).
    clear -H12 Hfree1. induction H12 as [|a l1 Ha _ IH]; [constructor|].
    inversion Hfree1; subst. constructor; [|auto].
    constructor; [|exact Ha]. apply apart_sym. assumption.
Qed.

Section PoolInvariants.
Variable pal : list RGB_t.
Variable lay : list Panel.

Lemma addSource_distinct colour i sp e u st st' :
  distinct_positions (sources st) →
  addSource pal lay colour i sp e u st = Ok st' →
  distinct_positions (sources st').
Proof.
  intros Hd Hcall. apply distinct_evict in Hd.
  apply addSource_Ok_inv in Hcall
    as (p & cR & cG & cB & _ & _ & _ & _ & _ & Hcase).
  destruct Hcase as [(l' & Hm & -> & _) | (Hm & (k & s & -> & _ & Hx & Hy & _) & _)].
  - apply merge_loop_Some_inv in Hm as (k & s & Hk & _ & ->).
    apply distinct_merged; assumption.
  - apply distinct_inserted; [exact Hd|].
    rewrite Hx, Hy. apply (merge_loop_None _ _ i sp). exact Hm.
Qed.

Lemma run_addSource_distinct cs : ∀ st st',
  distinct_positions (sources st) →
  run_addSource pal lay cs st = Ok st' →
  distinct_positions (sources st').
Proof.
  induction cs as [|c cs IH]; intros st st' Hd; simpl.
  - intros [= <-]. exact Hd.
  - intros H. apply bind_Ok_inv in H as (st1 & H1 & H).
    apply (IH st1); [|exact H]. eapply addSource_distinct; eassumption.
Qed.

(** X2.  Whatever [addSource] calls are made from the empty pool, no two
    sources of the pool have equal positions: a call either overwrites
    the source on its spawn position or puts a source on a position that
    no other source has. *)
Theorem addSource_positions_distinct cs st :
  run_addSource pal lay cs initial_state = Ok st →
  distinct_positions (sources st) ∧
  ∀ i j si sj, i ≠ j → sources st !! i = Some si → sources st !! j = Some sj →
    same_position (x si) (y si) sj = false.
Proof.
  intros H.
  assert (Hd : distinct_positions (sources st))
    by (apply (run_addSource_distinct cs initial_state); [exact I | exact H]).
  split; [exact Hd|].
  intros i j si sj Hij Hi Hj.
  pose proof (proj1 (pairwise_lookup apart (sources st)) Hd) as Hp.
  destruct (decide (i < j)%nat).
  - apply (Hp i j); assumption.
  - apply (apart_sym sj si). apply (Hp j i); [lia | assumption..].
Qed.

Lemma addSource_count colour i sp e u st st' :
  0 ≤ count st ≤ BEAT_COUNT →
  addSource pal lay colour i sp e u st = Ok st' →
  0 ≤ count st' ≤ BEAT_COUNT ∧
  r st' = (if BEAT_COUNT <=? count st + 1 then random_panel lay u else r st).
Proof.
  intros Hc Hcall.
  apply addSource_Ok_inv in Hcall
    as (p & cR & cG & cB & _ & _ & _ & _ & Hr & Hcase).
  unfold BEAT_COUNT in *.
  destruct (Z.leb_spec 8 (count st + 1)); simpl in *;
    (split; [|exact Hr]);
    destruct Hcase as [(l' & _ & _ & ->) | (_ & _ & ->)];
    try destruct (ENERGY_THRESHOLD <=? e); lia.
Qed.

Lemma run_addSource_count cs : ∀ st st',
  0 ≤ count st ≤ BEAT_COUNT →
  run_addSource pal lay cs st = Ok st' →
  0 ≤ count st' ≤ BEAT_COUNT.
Proof.
  induction cs as [|c cs IH]; intros st st' Hc; simpl.
  - intros [= <-]. exact Hc.
  - intros H. apply bind_Ok_inv in H as (st1 & H1 & H).
    apply (IH st1); [|exact H]. eapply addSource_count; eassumption.
Qed.

(** X3.  The rotation counter stays within [0, BEAT_COUNT] over any run of
    calls from the initial state, and a call changes the panel index [r]
    only when it finds the counter at [BEAT_COUNT - 1] or above: then [r]
    is the drawn index, otherwise it is kept. *)
Theorem addSource_count_bounds cs st :
  run_addSource pal lay cs initial_state = Ok st →
  0 ≤ count st ≤ BEAT_COUNT ∧
  ∀ colour i sp e u st',
    addSource pal lay colour i sp e u st = Ok st' →
    0 ≤ count st' ≤ BEAT_COUNT ∧
    r st' = (if BEAT_COUNT <=? count st + 1 then random_panel lay u else r st).
Proof.
  intros H.
  assert (Hc : 0 ≤ count st ≤ BEAT_COUNT).
  { apply (run_addSource_count cs initial_state); [|exact H].
    unfold BEAT_COUNT; simpl; lia. }
  split; [exact Hc|]. intros. eapply addSource_count; eassumption.
Qed.

End PoolInvariants.

Lemma addSource_positions_distinct_witness :
  distinct_positions (sources (state_of Scenario.full_pool)).
Proof.
  refine (proj1 (addSource_positions_distinct Scenario.palette Scenario.layout
                   Scenario.fill_pool _ _)).
  vm_compute; reflexivity.
Defined.

Lemma addSource_count_bounds_witness :
  0 ≤ count (state_of Scenario.full_pool) ≤ BEAT_COUNT.
Proof.
  refine (proj1 (addSource_count_bounds Scenario.palette Scenario.layout
                   Scenario.fill_pool _ _)).
  vm_compute; reflexivity.
Defined.

(** A test that implies a property proves it for a whole list. *)
Lemma Forall_by_test {A} (P : A → Prop) (f : A → bool) (l : list A) :
  (∀ a, f a = true → P a) → forallb f l = true → Forall P l.
Proof.
  intros Hf. induction l as [|a l IH]; simpl; [constructor|].
  intros [Ha Hl]%andb_true_iff. constructor; auto.
Qed.

(** X1 in the scenario: an onset source lands on the free panel 2, with a
    weaker and a stronger source already in the pool. *)
Lemma addSource_insert_keeps_ordering_witness :
  ordered (sources (state_of Scenario.two_pool)) ∧
  ordered (sources (state_of
    (addSource_call Scenario.palette Scenario.layout
       (Scenario.onset (F32.of_int 0) 100 (Scenario.draw 0))
       (state_of Scenario.two_pool)))).
Proof.
  assert (Hord : ordered (sources (state_of Scenario.two_pool)))
    by (apply orderedb_ordered; vm_compute; reflexivity).
  split; [exact Hord|].
  refine (addSource_insert_keeps_ordering Scenario.palette Scenario.layout
            (F32.of_int 0) (flit 7 10) (flit 8 10) 100 (Scenario.draw 0)
            (state_of Scenario.two_pool) _ (Scenario.panel 2) _ _ _ Hord _).
  - vm_compute; reflexivity.
  - apply (Forall_by_test _
             (λ s, negb (same_position (centroid_x (Scenario.panel 2))
                           (centroid_y (Scenario.panel 2)) s)));
      [intros a Ha; apply negb_true_iff; exact Ha | vm_compute; reflexivity].
  - apply (Forall_by_test _
             (λ t, match fcmp (flit 7 10) (intensity t) with
                   | Some _ => true | None => false end));
      [intros a; destruct (fcmp (flit 7 10) (intensity a)); congruence
      | vm_compute; reflexivity].
  - vm_compute; reflexivity.
Defined.

(** *** Aging and the pool *)

Lemma diffuseSources_sublist l : diffuseSources l `sublist_of` (age_source <$> l).
Proof.
  rewrite diffuseSources_filter.
  destruct (decide (2 < length l)%nat); [apply sublist_filter | reflexivity].
Qed.

Lemma diffuseSources_length l : (length (diffuseSources l) ≤ length l)%nat.
Proof.
  pose proof (sublist_length _ _ (diffuseSources_sublist l)) as H.
  rewrite length_fmap in H. exact H.
Qed.

Lemma diffuseSources_distinct l :
  distinct_positions l → distinct_positions (diffuseSources l).
Proof.
  unfold distinct_positions. intros H.
  apply (pairwise_sublist _ _ _ (diffuseSources_sublist l)).
  apply pairwise_fmap. exact H.
Qed.

(** X5.  [diffuseSources] only ages and removes: what it leaves is a
    sublist of the aged pool, in the same order, so an ordered pool stays
    ordered and the pool never grows. *)
Theorem diffuseSources_keeps_ordering (l : list source_t) :
  ordered l →
  ordered (diffuseSources l) ∧
  diffuseSources l `sublist_of` (age_source <$> l) ∧
  (length (diffuseSources l) ≤ length l)%nat.
Proof.
  intros Hord. split; [|split; [apply diffuseSources_sublist
                              | apply diffuseSources_length]].
  apply ordered_pairwise.
  apply (pairwise_sublist _ _ _ (diffuseSources_sublist l)).
  apply pairwise_fmap. apply ordered_pairwise in Hord. exact Hord.
Qed.

Lemma diffuseSources_keeps_ordering_witness :
  ordered (sources (state_of Scenario.two_pool)) ∧
  ordered (diffuseSources (sources (state_of Scenario.two_pool))).
Proof.
  assert (Hord : ordered (sources (state_of Scenario.two_pool)))
    by (apply orderedb_ordered; vm_compute; reflexivity).
  split; [exact Hord|].
  exact (proj1 (diffuseSources_keeps_ordering _ Hord)).
Defined.

(** *** The tick, step by step *)

Section TickSteps.
Variable pal : list RGB_t.
Variable lay : list Panel.
Variable RGBtoHSV : RGB_t → HSV_t.
Variable HSVtoRGB : HSV_t → RGB_t.

(** What a tick that returns did. *)
Lemma getPluginFrame_Ok_inv a st frames st' :
  getPluginFrame pal lay RGBtoHSV HSVtoRGB a st = Ok (frames, st') →
  ∃ mi sum n1 st1,
    strongest_bin (getFftBins a) (seqZ 0 N_FFT_BINS) 0 0 = Ok mi ∧
    int_add (maxBinIndexSum st) mi = Ok sum ∧
    int_add (n st) 1 = Ok n1 ∧
    ((getIsBeat a = true ∧ ∃ avg,
        int_div sum n1 = Ok avg ∧
        addSource pal lay
          (F32.of_int ((avg * nColours pal) `quot` (N_FFT_BINS `quot` 4)))
          (F32.of_int 1) (flit 15 10) (getEnergy a) (drand48_panel a)
          {| sources := sources st; r := r st; count := count st;
             maxBinIndexSum := 0; n := 0 |} = Ok st1) ∨
     (getIsBeat a = false ∧ getIsOnset a = true ∧
      addSource pal lay
        (to_float (F64.mul (drand48_colour a) (F64.of_int (nColours pal - 1))))
        (flit 7 10) (flit 8 10) (getEnergy a) (drand48_panel a)
        {| sources := sources st; r := r st; count := count st;
           maxBinIndexSum := sum; n := n1 |} = Ok st1) ∨
     (getIsBeat a = false ∧ getIsOnset a = false ∧
      st1 = {| sources := sources st; r := r st; count := count st;
               maxBinIndexSum := sum; n := n1 |})) ∧
    frames = render_frame RGBtoHSV HSVtoRGB (sources st1) <$> lay ∧
    st' = set_sources st1 (diffuseSources (sources st1)).
Proof.
  unfold getPluginFrame. intros H.
  apply bind_Ok_inv in H as (mi & Hmi & H).
  apply bind_Ok_inv in H as (sum & Hsum & H).
  apply bind_Ok_inv in H as (n1 & Hn1 & H).
  apply bind_Ok_inv in H as (st1 & Hst1 & H).
  injection H as <- <-.
  exists mi, sum, n1, st1. repeat (split; [assumption|]).
  split; [|split; reflexivity].
  destruct (getIsBeat a).
  - left. split; [reflexivity|].
    apply bind_Ok_inv in Hst1 as (avg & Havg & Hst1). eauto.
  - right. destruct (getIsOnset a).
    + left. auto.
    + right. injection Hst1 as <-. auto.
Qed.

(** The sources after the call of a tick, before the aging: those of the
    state the tick began in, or what [addSource] made of them. *)
Lemma getPluginFrame_sources a st frames st' :
  getPluginFrame pal lay RGBtoHSV HSVtoRGB a st = Ok (frames, st') →
  ∃ st1, sources st' = diffuseSources (sources st1) ∧
         r st' = r st1 ∧ count st' = count st1 ∧
         frames = render_frame RGBtoHSV HSVtoRGB (sources st1) <$> lay ∧
         ((sources st1 = sources st ∧ r st1 = r st ∧ count st1 = count st) ∨
          ∃ colour i sp e u st0,
            sources st0 = sources st ∧ r st0 = r st ∧ count st0 = count st ∧
            addSource pal lay colour i sp e u st0 = Ok st1).
Proof.
  intros H. apply getPluginFrame_Ok_inv in H
    as (mi & sum & n1 & st1 & _ & _ & _ & Hcase & -> & ->).
  exists st1. repeat (split; [reflexivity|]).
  destruct Hcase as [(_ & avg & _ & Hadd) | [(_ & _ & Hadd) | (_ & _ & ->)]].
  - right.
    match type of Hadd with
    | addSource _ _ ?c ?i ?sp ?e ?u ?s0 = _ => exists c, i, sp, e, u, s0
    end. repeat split; first [exact Hadd | reflexivity].
  - right.
    match type of Hadd with
    | addSource _ _ ?c ?i ?sp ?e ?u ?s0 = _ => exists c, i, sp, e, u, s0
    end. repeat split; first [exact Hadd | reflexivity].
  - left. repeat split.
Qed.

Lemma getPluginFrame_pool a st frames st' :
  nSources st ≤ MAX_SOURCES →
  distinct_positions (sources st) →
  getPluginFrame pal lay RGBtoHSV HSVtoRGB a st = Ok (frames, st') →
  nSources st' ≤ MAX_SOURCES ∧ distinct_positions (sources st').
Proof.
  intros Hn Hd H. unfold nSources at 1.
  apply getPluginFrame_sources in H
    as (st1 & -> & _ & _ & _ & Hcase).
  assert (H1 : nSources st1 ≤ MAX_SOURCES ∧ distinct_positions (sources st1)).
  { destruct Hcase as [(Hs & _) | (colour & i & sp & e & u & st0 & Hs & _ & _ & Hadd)].
    - unfold nSources in *. rewrite Hs. auto.
    - unfold nSources in Hn. rewrite <- Hs in Hn, Hd. split.
      + apply (addSource_length _ _ _ _ _ _ _ _ _ Hadd). exact Hn.
      + eapply addSource_distinct; eassumption. }
  destruct H1 as [Hn1 Hd1]. split.
  - pose proof (diffuseSources_length (sources st1)).
    unfold nSources in *. lia.
  - apply diffuseSources_distinct, Hd1.
Qed.

Lemma run_ticks_pool fs : ∀ st st',
  nSources st ≤ MAX_SOURCES →
  distinct_positions (sources st) →
  run_ticks pal lay RGBtoHSV HSVtoRGB fs st = Ok st' →
  nSources st' ≤ MAX_SOURCES ∧ distinct_positions (sources st').
Proof.
  induction fs as [|a fs IH]; intros st st' Hn Hd; simpl.
  - intros [= <-]. auto.
  - intros H. apply bind_Ok_inv in H as ([frames st1] & H1 & H).
    destruct (getPluginFrame_pool _ _ _ _ Hn Hd H1) as [Hn1 Hd1].
    apply (IH st1); assumption.
Qed.

(** X6.  Over any run of ticks from the initial state the pool holds at
    most 15 sources and no two of them have equal positions: the call of
    a tick and the aging that follows both keep the two properties. *)
Theorem getPluginFrame_pool_invariants fs st :
  run_ticks pal lay RGBtoHSV HSVtoRGB fs initial_state = Ok st →
  nSources st ≤ MAX_SOURCES ∧ distinct_positions (sources st).
Proof.
  apply run_ticks_pool; [unfold nSources, MAX_SOURCES; simpl; lia | exact I].
Qed.

End TickSteps.

Lemma getPluginFrame_pool_invariants_witness :
  let st := state_of
    (run_ticks Scenario.palette Scenario.layout
       Scenario.RGBtoHSV Scenario.HSVtoRGB
       [Scenario.tick true false 60000 100; Scenario.tick false true 0 100;
        Scenario.tick false false 0 100] initial_state) in
  nSources st = 1 ∧
  nSources st ≤ MAX_SOURCES ∧ distinct_positions (sources st).
Proof.
  split; [vm_compute; reflexivity|].
  refine (getPluginFrame_pool_invariants Scenario.palette Scenario.layout
            Scenario.RGBtoHSV Scenario.HSVtoRGB
            [Scenario.tick true false 60000 100; Scenario.tick false true 0 100;
             Scenario.tick false false 0 100] _ _).
  vm_compute; reflexivity.
Defined.

(** *** The strongest bin and the running average *)

Lemma strongest_bin_scan bins : ∀ (k : nat) a m mi res,
  strongest_bin bins (seqZ a (Z.of_nat k)) m mi = Ok res →
  (res = mi ∧ ∀ j c, a ≤ j < a + Z.of_nat k → index bins j = Ok c → c ≤ m) ∨
  (∃ b, a ≤ res < a + Z.of_nat k ∧ index bins res = Ok b ∧ m < b ∧
        (∀ j c, a ≤ j < a + Z.of_nat k → index bins j = Ok c → c ≤ b) ∧
        (∀ j c, a ≤ j < res → index bins j = Ok c → c < b)).
Proof.
  induction k as [|k IH]; intros a m mi res.
  - simpl. intros [= <-]. left. split; [reflexivity|]. intros; lia.
  - rewrite seqZ_cons by lia.
    replace (Z.pred (Z.of_nat (S k))) with (Z.of_nat k) by lia.
    simpl. intros H. apply bind_Ok_inv in H as (b0 & Hb0 & H).
    assert (Hat : ∀ j c, j = a → index bins j = Ok c → c = b0)
      by (intros j c -> Hc; congruence).
    destruct (Z.ltb_spec m b0) as [Hlt|Hge]; apply IH in H.
    + right. destruct H as [(-> & Hall) | (b & Hres & Hb & Hlt' & Hall & Hbefore)].
      * exists b0. split; [lia|]. split; [exact Hb0|]. split; [exact Hlt|].
        split; [|intros; lia]. intros j c Hj Hc.
        destruct (decide (j = a)) as [Hja|Hja];
          [rewrite (Hat j c Hja Hc); lia | apply (Hall j); [lia | exact Hc]].
      * exists b. split; [lia|]. split; [exact Hb|]. split; [lia|]. split.
        -- intros j c Hj Hc.
           destruct (decide (j = a)) as [Hja|Hja];
             [rewrite (Hat j c Hja Hc); lia | apply (Hall j); [lia | exact Hc]].
        -- intros j c Hj Hc.
           destruct (decide (j = a)) as [Hja|Hja];
             [rewrite (Hat j c Hja Hc); lia | apply (Hbefore j); [lia | exact Hc]].
    + destruct H as [(-> & Hall) | (b & Hres & Hb & Hlt' & Hall & Hbefore)].
      * left. split; [reflexivity|]. intros j c Hj Hc.
        destruct (decide (j = a)) as [Hja|Hja];
          [rewrite (Hat j c Hja Hc); lia | apply (Hall j); [lia | exact Hc]].
      * right. exists b. split; [lia|]. split; [exact Hb|]. split; [lia|]. split.
        -- intros j c Hj Hc.
           destruct (decide (j = a)) as [Hja|Hja];
             [rewrite (Hat j c Hja Hc); lia | apply (Hall j); [lia | exact Hc]].
        -- intros j c Hj Hc.
           destruct (decide (j = a)) as [Hja|Hja];
             [rewrite (Hat j c Hja Hc); lia | apply (Hbefore j); [lia | exact Hc]].
Qed.

Lemma strongest_bin_range bins res :
  strongest_bin bins (seqZ 0 N_FFT_BINS) 0 0 = Ok res → 0 ≤ res < N_FFT_BINS.
Proof.
  unfold N_FFT_BINS. intros H.
  apply (strongest_bin_scan bins 32 0 0 0 res) in H.
  destruct H as [(-> & _) | (b & Hres & _)]; lia.
Qed.

(** X15.  The loop over the FFT bins returns the lowest index among the
    bins of the largest magnitude, when some bin is above zero, and index
    0 when none is. *)
Theorem strongest_bin_first_maximum (bins : list Z) (res : Z) :
  strongest_bin bins (seqZ 0 N_FFT_BINS) 0 0 = Ok res →
  0 ≤ res < N_FFT_BINS ∧
  ((res = 0 ∧ ∀ j c, 0 ≤ j < N_FFT_BINS → index bins j = Ok c → c ≤ 0) ∨
   (∃ b, index bins res = Ok b ∧ 0 < b ∧
         (∀ j c, 0 ≤ j < N_FFT_BINS → index bins j = Ok c → c ≤ b) ∧
         (∀ j c, 0 ≤ j < res → index bins j = Ok c → c < b))).
Proof.
  unfold N_FFT_BINS. intros H.
  apply (strongest_bin_scan bins 32 0 0 0 res) in H.
  destruct H as [(-> & Hall) | (b & Hres & Hb & Hlt & Hall & Hbefore)].
  - split; [lia|]. left. split; [reflexivity|]. intros j c Hj. apply Hall. lia.
  - split; [lia|]. right. exists b. split; [exact Hb|]. split; [exact Hlt|].
    split; [|exact Hbefore]. intros j c Hj. apply Hall. lia.
Qed.

Lemma strongest_bin_first_maximum_witness :
  strongest_bin ([0; 3; 7; 2; 7] ++ replicate 27 1) (seqZ 0 N_FFT_BINS) 0 0 = Ok 2 ∧
  0 ≤ 2 < N_FFT_BINS.
Proof.
  assert (H : strongest_bin ([0; 3; 7; 2; 7] ++ replicate 27 1)
                (seqZ 0 N_FFT_BINS) 0 0 = Ok 2) by (vm_compute; reflexivity).
  split; [exact H|].
  exact (proj1 (strongest_bin_first_maximum _ _ H)).
Defined.

(** The loop reads the bins 0 .. 31 and nothing else. *)
Lemma strongest_bin_Ok bins : ∀ (k : nat) a m mi,
  0 ≤ a → a + Z.of_nat k ≤ Z.of_nat (length bins) →
  is_Ok (strongest_bin bins (seqZ a (Z.of_nat k)) m mi).
Proof.
  induction k as [|k IH]; intros a m mi Ha Hk; [exact I|].
  rewrite seqZ_cons by lia.
  replace (Z.pred (Z.of_nat (S k))) with (Z.of_nat k) by lia. simpl.
  destruct (lookup_lt_is_Some_2 bins (Z.to_nat a)) as [b Hb]; [lia|].
  rewrite (index_lookup_Ok bins a b Ha Hb). simpl.
  destruct (m <? b); apply IH; lia.
Qed.

Section Average.
Variable pal : list RGB_t.
Variable lay : list Panel.
Variable RGBtoHSV : RGB_t → HSV_t.
Variable HSVtoRGB : HSV_t → RGB_t.

Lemma getPluginFrame_accumulators a st frames st' :
  0 ≤ n st → 0 ≤ maxBinIndexSum st ≤ 31 * n st →
  getPluginFrame pal lay RGBtoHSV HSVtoRGB a st = Ok (frames, st') →
  0 ≤ n st' ∧ 0 ≤ maxBinIndexSum st' ≤ 31 * n st'.
Proof.
  intros Hn Hsum H.
  apply getPluginFrame_Ok_inv in H
    as (mi & sum & n1 & st1 & Hmi & Hs & Hn1 & Hcase & _ & ->).
  apply strongest_bin_range in Hmi. unfold N_FFT_BINS in Hmi.
  apply int_add_Ok in Hs as [-> _]. apply int_add_Ok in Hn1 as [-> _].
  simpl.
  destruct Hcase as [(_ & avg & _ & Hadd) | [(_ & _ & Hadd) | (_ & _ & ->)]].
  - apply addSource_Ok_inv in Hadd as (? & ? & ? & ? & _ & _ & -> & -> & _).
    simpl. lia.
  - apply addSource_Ok_inv in Hadd as (? & ? & ? & ? & _ & _ & -> & -> & _).
    simpl. lia.
  - simpl. lia.
Qed.

Lemma run_ticks_accumulators fs : ∀ st st',
  0 ≤ n st → 0 ≤ maxBinIndexSum st ≤ 31 * n st →
  run_ticks pal lay RGBtoHSV HSVtoRGB fs st = Ok st' →
  0 ≤ n st' ∧ 0 ≤ maxBinIndexSum st' ≤ 31 * n st'.
Proof.
  induction fs as [|a fs IH]; intros st st' Hn Hsum; simpl.
  - intros [= <-]. auto.
  - intros H. apply bind_Ok_inv in H as ([frames st1] & H1 & H).
    destruct (getPluginFrame_accumulators _ _ _ _ Hn Hsum H1) as [Hn1 Hs1].
    apply (IH st1); assumption.
Qed.

(** X7.  In every state that ticks lead to from the initial state the sum
    of the strongest-bin indices is between 0 and 31 times the number of
    ticks counted, so the average that a beat computes from them, with
    the bin of the beat's own tick added, is a bin index between 0 and
    31. *)
Theorem getPluginFrame_average_is_a_bin fs st :
  run_ticks pal lay RGBtoHSV HSVtoRGB fs initial_state = Ok st →
  0 ≤ n st ∧ 0 ≤ maxBinIndexSum st ≤ 31 * n st ∧
  ∀ mi, 0 ≤ mi < N_FFT_BINS →
    0 ≤ (maxBinIndexSum st + mi) `quot` (n st + 1) < N_FFT_BINS.
Proof.
  intros H.
  destruct (run_ticks_accumulators fs initial_state st) as [Hn Hs];
    [simpl; lia | simpl; lia | exact H |].
  split; [exact Hn|]. split; [exact Hs|].
  unfold N_FFT_BINS. intros mi Hmi.
  rewrite Z.quot_div_nonneg by lia. split.
  - apply Z.div_pos; lia.
  - apply Z.div_lt_upper_bound; lia.
Qed.

End Average.

Lemma getPluginFrame_average_is_a_bin_witness :
  let st := state_of
    (run_ticks Scenario.palette Scenario.layout
       Scenario.RGBtoHSV Scenario.HSVtoRGB
       [Scenario.tick false false 0 100; Scenario.tick false true 0 100]
       initial_state) in
  n st = 2 ∧ 0 ≤ maxBinIndexSum st ≤ 31 * n st.
Proof.
  split; [vm_compute; reflexivity|].
  refine (proj1 (proj2 (getPluginFrame_average_is_a_bin
            Scenario.palette Scenario.layout
            Scenario.RGBtoHSV Scenario.HSVtoRGB
            [Scenario.tick false false 0 100; Scenario.tick false true 0 100]
            _ _))).
  vm_compute; reflexivity.
Defined.

(** *** The frames of a tick *)

Section Frames.
Variable pal : list RGB_t.
Variable lay : list Panel.
Variable RGBtoHSV : RGB_t → HSV_t.
Variable HSVtoRGB : HSV_t → RGB_t.

Lemma renderPanel_range (panel : Panel) (l : list source_t) :
  (∀ h, rgb_ok (HSVtoRGB h)) →
  ∃ cR cG cB,
    renderPanel RGBtoHSV HSVtoRGB panel l = (cR, cG, cB) ∧
    0 ≤ cR ≤ 255 ∧ 0 ≤ cG ≤ 255 ∧ 0 ≤ cB ≤ 255.
Proof.
  intros Hrange. unfold renderPanel.
  destruct (render_loop_held RGBtoHSV HSVtoRGB
              (centroid_x panel) (centroid_y panel) l
              (F32.of_int BASE_COLOUR_R, F32.of_int BASE_COLOUR_G,
               F32.of_int BASE_COLOUR_B) Hrange)
    as (c & (HR & HG & HB) & ->).
  { exists (mkRGB 0 0 0). split; [|reflexivity].
    repeat split; simpl; lia. }
  rewrite !F32_of_int_exact by assumption.
  eexists _, _, _. split; [reflexivity|].
  unfold channel_ok in *. repeat split; apply clamp255_range; lia.
Qed.

(** X8.  A tick that returns fills one frame per panel, in the order of
    the layout: each frame carries the identifier of its panel and the
    transition time 1, and, when [HSVtoRGB] returns channels that are not
    negative, channels in [0, 255]. *)
Theorem getPluginFrame_frames a st frames st' :
  (∀ h, rgb_ok (HSVtoRGB h)) →
  getPluginFrame pal lay RGBtoHSV HSVtoRGB a st = Ok (frames, st') →
  length frames = length lay ∧
  frame_panelId <$> frames = panelId <$> lay ∧
  Forall (λ f, frame_transTime f = TRANSITION_TIME ∧
               0 ≤ frame_r f ≤ 255 ∧ 0 ≤ frame_g f ≤ 255 ∧
               0 ≤ frame_b f ≤ 255) frames.
Proof.
  intros Hrange H.
  apply getPluginFrame_Ok_inv in H
    as (mi & sum & n1 & st1 & _ & _ & _ & _ & -> & _).
  split; [apply length_fmap|]. split.
  - rewrite <- list_fmap_compose. apply list_fmap_ext. intros i p _.
    unfold compose, render_frame.
    destruct (renderPanel RGBtoHSV HSVtoRGB p (sources st1)) as [[cR cG] cB].
    reflexivity.
  - apply Forall_fmap, Forall_forall. intros p _. unfold compose, render_frame.
    destruct (renderPanel_range p (sources st1) Hrange)
      as (cR & cG & cB & -> & HR & HG & HB).
    simpl. auto.
Qed.

End Frames.

Lemma getPluginFrame_frames_witness :
  ∃ frames st',
    getPluginFrame Scenario.palette Scenario.layout
      Scenario.RGBtoHSV Scenario.HSVtoRGB
      (Scenario.tick true false 60000 100) initial_state = Ok (frames, st') ∧
    length frames = 20%nat ∧
    frame_panelId <$> frames = panelId <$> Scenario.layout.
Proof.
  eexists _, _. split; [vm_compute; reflexivity|].
  split; [reflexivity|].
  refine (proj1 (proj2 (getPluginFrame_frames Scenario.palette Scenario.layout
            Scenario.RGBtoHSV Scenario.HSVtoRGB
            (Scenario.tick true false 60000 100) initial_state _ _
            Scenario_HSVtoRGB_range _))).
  vm_compute; reflexivity.
Defined.

(** *** The blend factor *)

(** X10.  The factor with which a source is blended into a panel is never
    below [FRACTION_COLOUR_TO_KEEP]: a source that has reached
    [MAX_DIFFUSION_AGE] and is still in the pool is blended with exactly
    that fraction (as a [float]).  For a source at or above the energy
    threshold the distance decay is clamped into [0, 1]. *)
Theorem diffusion_factor_floor (s : source_t) (factor d : float) :
  fltb (diffusion_factor s factor) FRACTION_COLOUR_TO_KEEP = false ∧
  (fleb MAX_DIFFUSION_AGE (diffusion_age s) = true →
   diffusion_factor s factor = to_float FRACTION_COLOUR_TO_KEEP) ∧
  (ENERGY_THRESHOLD ≤ energy s →
   fltb one (decay_factor s d) = false ∧
   fltb (decay_factor s d) (F64.of_int 0) = false).
Proof.
  split; [|split].
  - unfold diffusion_factor.
    destruct (fleb MAX_DIFFUSION_AGE (diffusion_age s)).
    + vm_compute. reflexivity.
    + match goal with
      | |- fltb (if fltb ?f _ then _ else _) _ = false =>
          destruct (fltb f FRACTION_COLOUR_TO_KEEP) eqn:Hf;
            [vm_compute; reflexivity | exact Hf]
      end.
  - intros Hold. unfold diffusion_factor. rewrite Hold. vm_compute. reflexivity.
  - intros He. unfold decay_factor.
    assert (Hthr : (ENERGY_THRESHOLD <=? energy s) = true)
      by (apply Z.leb_le; exact He).
    rewrite Hthr. cbv zeta.
    match goal with
    | |- context [if fltb one ?f then _ else _] =>
        destruct (fltb one f) eqn:H1
    end.
    + vm_compute. auto.
    + match goal with
      | |- context [if fltb ?f (F64.of_int 0) then _ else _] =>
          destruct (fltb f (F64.of_int 0)) eqn:H0
      end; [vm_compute; auto | auto].
Qed.

Lemma diffusion_factor_floor_witness :
  let s := {| x := F32.zero; y := F32.zero; vx := F32.zero; vy := F32.zero;
              diffusion_age := F32.of_int 15; R := 200; G := 100; B := 50;
              intensity := F32.of_int 1; speed := flit 15 10; energy := 60000 |} in
  diffusion_factor s (F32.of_int 1) = to_float FRACTION_COLOUR_TO_KEEP ∧
  fltb one (decay_factor s (F32.of_int 87)) = false.
Proof.
  intros s.
  destruct (diffusion_factor_floor s (F32.of_int 1) (F32.of_int 87))
    as (_ & Hold & Hdecay).
  split.
  - apply Hold. vm_compute. reflexivity.
  - apply Hdecay. vm_compute. discriminate.
Defined.

(** *** The panel draw *)

(** An integer of at most [prec] digits is a finite number of the format. *)
Lemma binary_round_small prec emax s m :
  Zpos (digits2_pos m) ≤ prec →
  2 ≤ emax → Zpos (digits2_pos m) ≤ emax →
  ∃ m' e', binary_round prec emax s m 0 = S754_finite s m' e'.
Proof.
  intros Hd Hemax Hd'.
  unfold binary_round, shl_align, fexp, emin.
  rewrite Z.max_l by lia.
  destruct (Zpos (digits2_pos m) + 0 - prec - 0) as [|k|k] eqn:Hk; [|lia|].
  - rewrite binary_round_aux_canonical; [eauto| |lia].
    unfold canonical_mantissa, fexp, emin. apply Z.eqb_eq. lia.
  - rewrite binary_round_aux_canonical; [eauto| |lia].
    unfold canonical_mantissa, fexp, emin. apply Z.eqb_eq.
    rewrite digits2_pos_iter_xO. lia.
Qed.

Lemma digits2_pos_upper m k : 0 ≤ k → Zpos m < 2 ^ k → Zpos (digits2_pos m) ≤ k.
Proof.
  intros Hk Hm. pose proof (digits2_pos_lower m) as Hlow.
  destruct (Z.le_gt_cases (Zpos (digits2_pos m)) k) as [|Hgt]; [assumption|].
  assert (2 ^ k ≤ 2 ^ (Zpos (digits2_pos m) - 1)) by (apply Z.pow_le_mono_r; lia).
  lia.
Qed.

(** With the draw [0.0] the expression [(int)(drand48() * nPanels - 1)] is
    [-1], whatever the layout. *)
Lemma random_panel_zero (lay : list Panel) :
  nPanels lay < 2 ^ 53 → random_panel lay (S754_zero false) = -1.
Proof.
  intros Hn. unfold random_panel, F64.mul, F64.of_int at 1, binary_normalize.
  destruct (nPanels lay) as [|m|m] eqn:Hm.
  - vm_compute. reflexivity.
  - destruct (binary_round_small F64.prec F64.emax false m) as (m' & e' & ->).
    + apply digits2_pos_upper; [unfold F64.prec; lia | exact Hn].
    + unfold F64.emax; lia.
    + pose proof (digits2_pos_upper m 53 ltac:(lia) Hn).
      unfold F64.emax; lia.
    + cbn [SFmul xorb]. vm_compute. reflexivity.
  - unfold nPanels in Hm. lia.
Qed.

Section ZeroDraw.
Variable pal : list RGB_t.
Variable lay : list Panel.

(** X4.  [drand48()] may return [0.0].  A call that rotates with that draw
    returns, and leaves [r = -1]: from then on every [addSource] call
    reads [panels[-1]], outside the layout, whatever its arguments. *)
Theorem addSource_zero_draw_leaves_layout colour i sp e st st1 :
  nPanels lay < 2 ^ 53 →
  BEAT_COUNT ≤ count st + 1 →
  addSource pal lay colour i sp e (S754_zero false) st = Ok st1 →
  r st1 = -1 ∧
  ∀ colour2 i2 sp2 e2 u2,
    addSource pal lay colour2 i2 sp2 e2 u2 st1 = Fault OutOfBounds.
Proof.
  intros Hn Hc Hcall.
  apply addSource_Ok_inv in Hcall
    as (p & cR & cG & cB & _ & _ & _ & _ & Hr & _).
  assert (Hrot : (BEAT_COUNT <=? count st + 1) = true)
    by (apply Z.leb_le; exact Hc).
  rewrite Hrot in Hr. simpl in Hr. rewrite random_panel_zero in Hr by exact Hn.
  split; [exact Hr|].
  intros. unfold addSource. rewrite Hr. reflexivity.
Qed.

End ZeroDraw.

Lemma addSource_zero_draw_leaves_layout_witness :
  let st := state_of (run_addSource Scenario.palette Scenario.layout
                        [Scenario.beat 1 60000 (Scenario.draw 0)] initial_state) in
  let st1 := state_of (addSource Scenario.palette Scenario.layout
                         (F32.of_int 1) (F32.of_int 1) (flit 15 10) 100
                         (S754_zero false) st) in
  count st = BEAT_COUNT ∧ r st1 = -1.
Proof.
  split; [vm_compute; reflexivity|].
  refine (proj1 (addSource_zero_draw_leaves_layout
            Scenario.palette Scenario.layout
            (F32.of_int 1) (F32.of_int 1) (flit 15 10) 100
            (state_of (run_addSource Scenario.palette Scenario.layout
                         [Scenario.beat 1 60000 (Scenario.draw 0)] initial_state))
            _ _ _ _)).
  - vm_compute; reflexivity.
  - vm_compute; discriminate.
  - vm_compute; reflexivity.
Defined.

(** *** Two calls in a row *)

Lemma first_match {A} (f : A → bool) (l : list A) k a :
  l !! k = Some a → f a = true →
  ∃ k' a', l !! k' = Some a' ∧ f a' = true ∧
           ∀ j b, (j < k')%nat → l !! j = Some b → f b = false.
Proof.
  revert k. induction l as [|c l IH]; intros k Hk Ha; [discriminate|].
  destruct (f c) eqn:Hc.
  - exists 0%nat, c. split; [reflexivity|]. split; [exact Hc|]. intros; lia.
  - destruct k as [|k]; simpl in Hk; [congruence|].
    destruct (IH k Hk Ha) as (k' & a' & Hk' & Ha' & Hfirst).
    exists (S k'), a'. split; [exact Hk'|]. split; [exact Ha'|].
    intros [|j] b Hj Hb; simpl in Hb; [congruence|].
    apply (Hfirst j); [lia | exact Hb].
Qed.

Section Twice.
Variable pal : list RGB_t.
Variable lay : list Panel.

(** X9.  Two calls in a row on the same panel leave one source there.
    When the first call does not rotate and leaves the pool below its
    capacity, the second call finds a source on the spawn position and
    only overwrites its age, intensity and speed: the pool keeps its
    length, and the colour and the energy of the second call are
    dropped.  (The coordinates of the panel have to be numbers.) *)
Theorem addSource_twice_merges
    colour1 i1 sp1 e1 u1 colour2 i2 sp2 e2 u2 st p :
  index lay (r st) = Ok p →
  feqb (centroid_x p) (centroid_x p) = true →
  feqb (centroid_y p) (centroid_y p) = true →
  count st + 1 < BEAT_COUNT →
  nSources st < MAX_SOURCES - 1 →
  is_Ok (getRGB pal colour1) →
  is_Ok (getRGB pal colour2) →
  ∃ st1 st2 k s,
    addSource pal lay colour1 i1 sp1 e1 u1 st = Ok st1 ∧
    addSource pal lay colour2 i2 sp2 e2 u2 st1 = Ok st2 ∧
    sources st1 !! k = Some s ∧
    same_position (centroid_x p) (centroid_y p) s = true ∧
    sources st2 = <[k := merged s i2 sp2]> (sources st1) ∧
    nSources st2 = nSources st1.
Proof.
  intros Hp Hx Hy Hc Hn Hrgb1 Hrgb2.
  destruct (addSource_spawns pal lay colour1 i1 sp1 e1 u1 st p Hp Hrgb1)
    as (st1 & Hcall1 & Hr1 & (k0 & s0 & Hk0 & _ & _ & _ & Hpos)).
  assert (Hr : r st1 = r st).
  { rewrite Hr1. destruct (Z.leb_spec BEAT_COUNT (count st + 1)); [lia|reflexivity]. }
  assert (Hat : same_position (centroid_x p) (centroid_y p) s0 = true).
  { destruct Hpos as [[Hsx Hsy] | Hsame]; [|exact Hsame].
    unfold same_position. rewrite Hsx, Hsy, Hx, Hy. reflexivity. }
  destruct (first_match (same_position (centroid_x p) (centroid_y p))
              (sources st1) k0 s0 Hk0 Hat) as (k & s & Hk & Hs & Hfirst).
  assert (Hn1 : nSources st1 < MAX_SOURCES).
  { pose proof (proj2 (addSource_length pal lay _ _ _ _ _ _ _ Hcall1)) as Hlen.
    unfold MAX_SOURCES in *. lia. }
  assert (Hp1 : index lay (r st1) = Ok p) by (rewrite Hr; exact Hp).
  apply is_Ok_inv in Hrgb2 as ([[cR cG] cB] & Hrgb2).
  pose proof (addSource_resolved pal lay colour2 i2 sp2 e2 u2 st1 p cR cG cB
                Hp1 Hrgb2) as Hcall2.
  cbv zeta in Hcall2.
  assert (Hl : evict_if_full (sources st1) = sources st1).
  { unfold evict_if_full, nSources in *.
    destruct (Z.leb_spec MAX_SOURCES (Z.of_nat (length (sources st1))));
      [lia | reflexivity]. }
  rewrite Hl, (merge_loop_first _ _ _ _ _ k s Hk Hs Hfirst) in Hcall2.
  eexists st1, _, k, s. split; [exact Hcall1|]. split; [exact Hcall2|].
  split; [exact Hk|]. split; [exact Hs|]. split; [reflexivity|].
  unfold nSources. simpl. rewrite length_insert. reflexivity.
Qed.

End Twice.

Lemma addSource_twice_merges_witness :
  ∃ st1 st2,
    addSource Scenario.palette Scenario.layout
      (F32.of_int 1) (F32.of_int 1) (flit 15 10) 100 (Scenario.draw 3)
      initial_state = Ok st1 ∧
    addSource Scenario.palette Scenario.layout
      (F32.of_int 2) (flit 7 10) (flit 8 10) 100 (Scenario.draw 3) st1 = Ok st2 ∧
    nSources st2 = nSources st1.
Proof.
  destruct (addSource_twice_merges Scenario.palette Scenario.layout
              (F32.of_int 1) (F32.of_int 1) (flit 15 10) 100 (Scenario.draw 3)
              (F32.of_int 2) (flit 7 10) (flit 8 10) 100 (Scenario.draw 3)
              initial_state (Scenario.panel 0))
    as (st1 & st2 & k & s & H1 & H2 & _ & _ & _ & Hlen).
  - vm_compute; reflexivity.
  - vm_compute; reflexivity.
  - vm_compute; reflexivity.
  - vm_compute; reflexivity.
  - vm_compute; reflexivity.
  - vm_compute; exact I.
  - vm_compute; exact I.
  - exists st1, st2. auto.
Defined.

(** *** Whole colour indices *)

(** A positive [int] below [2^24] is a canonical positive [float]. *)
Lemma F32_of_int_pos m :
  Zpos m < 2 ^ 24 →
  ∃ m' e', F32.of_int (Zpos m) = S754_finite false m' e' ∧
           Zpos (digits2_pos m') = 24 ∧ -23 ≤ e' ≤ 0.
Proof.
  intros Hm. unfold F32.of_int, binary_normalize, binary_round.
  pose proof (digits2_pos_upper m 24 ltac:(lia) Hm) as Hd.
  unfold shl_align, fexp, emin, F32.prec, F32.emax.
  rewrite Z.max_l by lia.
  destruct (Zpos (digits2_pos m) + 0 - 24 - 0) as [|k|k] eqn:Hk; [|lia|].
  - rewrite binary_round_aux_canonical.
    + exists m, 0. split; [reflexivity|]. lia.
    + unfold canonical_mantissa, fexp, emin. apply Z.eqb_eq. lia.
    + lia.
  - rewrite binary_round_aux_canonical.
    + eexists _, _. split; [reflexivity|].
      rewrite digits2_pos_iter_xO. lia.
    + unfold canonical_mantissa, fexp, emin. apply Z.eqb_eq.
      rewrite digits2_pos_iter_xO. lia.
    + lia.
Qed.

(** The promotion of such a [float] to [double] is a positive number. *)
Lemma to_double_pos m e :
  Zpos (digits2_pos m) = 24 → -23 ≤ e ≤ 0 →
  ∃ m' e', to_double (S754_finite false m e) = S754_finite false m' e'.
Proof.
  intros Hd He. unfold to_double, F64.round, binary_round.
  unfold shl_align, fexp, emin, F64.prec, F64.emax.
  rewrite Hd, Z.max_l by lia.
  destruct (24 + e - 53 - e) as [|k|k] eqn:Hk; [lia|lia|].
  rewrite binary_round_aux_canonical.
  - eauto.
  - unfold canonical_mantissa, fexp, emin. apply Z.eqb_eq.
    rewrite digits2_pos_iter_xO. lia.
  - lia.
Qed.

(** A positive whole index fails the test [colour <= 0]. *)
Lemma fleb_of_int_pos m :
  Zpos m < 2 ^ 24 → fleb (F32.of_int (Zpos m)) (F32.of_int 0) = false.
Proof.
  intros Hm. destruct (F32_of_int_pos m Hm) as (m' & e' & -> & Hd & He).
  destruct (to_double_pos m' e' Hd He) as (m2 & e2 & H2).
  unfold fleb, fcmp. rewrite H2. reflexivity.
Qed.

(** The fraction of a whole index is zero. *)
Lemma fraction_of_int c :
  0 < c < 2 ^ 24 →
  F32.sub (F32.of_int c) (F32.of_int (to_int (F32.of_int c))) = S754_zero false.
Proof.
  intros Hc. rewrite F32_of_int_exact by (unfold channel_ok; lia).
  destruct c as [|m|m]; [lia| |lia].
  destruct (F32_of_int_pos m) as (m' & e' & -> & _); [lia|].
  unfold F32.sub, SFsub. rewrite Z.sub_diag. reflexivity.
Qed.

(** The right product of [lerp] at fraction zero. *)
Lemma F32_mul_zero_of_int v :
  channel_ok v → F32.mul (S754_zero false) (F32.of_int v) = S754_zero false.
Proof.
  unfold channel_ok. intros Hv. destruct v as [|m|m]; [reflexivity| |lia].
  destruct (F32_of_int_pos m) as (m' & e' & -> & _); [lia|]. reflexivity.
Qed.

Lemma forall_bytes (P : Z → Prop) (f : Z → bool) :
  (∀ v, f v = true → P v) →
  forallb f (seqZ 0 256) = true → ∀ v, byte_ok v → P v.
Proof.
  intros Hf Hall v Hv.
  pose proof (proj1 (list.Forall_forall P _) (Forall_by_test P f (seqZ 0 256) Hf Hall)) as HF.
  apply HF, elem_of_seqZ.
  unfold byte_ok in Hv. lia.
Qed.

(** At fraction zero the interpolation returns the left stop, for byte
    channels. *)
Lemma lerp_zero v w :
  byte_ok v → channel_ok w →
  to_int (lerp (S754_zero false) (F32.of_int v) (F32.of_int w)) = v.
Proof.
  intros Hv Hw. unfold lerp. rewrite (F32_mul_zero_of_int w Hw).
  revert v Hv.
  apply (forall_bytes _
    (λ v, to_int
            (to_float
               (F64.add
                  (F64.mul (F64.sub (F64.of_int 1) (to_double (S754_zero false)))
                     (to_double (F32.of_int v)))
                  (to_double (S754_zero false)))) =? v)).
  - intros v. apply Z.eqb_eq.
  - vm_compute. reflexivity.
Qed.

(** [C *= intensity] at intensity [1.0] leaves a byte channel as it is. *)
Lemma scale_one v : byte_ok v → scale v (F32.of_int 1) = v.
Proof.
  revert v. apply (forall_bytes _ (λ v, scale v (F32.of_int 1) =? v)).
  - intros v. apply Z.eqb_eq.
  - vm_compute. reflexivity.
Qed.

Lemma byte_rgb_ok c : byte_rgb c → rgb_ok c.
Proof.
  unfold byte_rgb, rgb_ok, byte_ok, channel_ok. intros (HR & HG & HB).
  assert (256 ≤ 2 ^ 24) by (vm_compute; intros [=]). lia.
Qed.

Section WholeIndex.
Variable pal : list RGB_t.

(** The stop that a whole index selects. *)
Lemma getRGB_at_stop (c : Z) :
  Forall byte_rgb pal → 2 ≤ nColours pal → 0 ≤ c < 2 ^ 24 →
  ∃ s, pal !! Z.to_nat (Z.min c (nColours pal - 1)) = Some s ∧
       getRGB pal (F32.of_int c) = Ok (rgb_R s, rgb_G s, rgb_B s).
Proof.
  intros Hpal Hn Hc.
  assert (Hbyte : ∀ k s, pal !! k = Some s → byte_rgb s).
  { intros k s Hk. eapply Forall_lookup_1; eassumption. }
  unfold getRGB. cbv zeta.
  destruct (Z.eqb_spec (nColours pal) 0); [lia|].
  destruct (Z.eqb_spec (nColours pal) 1); [lia|].
  unfold nColours in *.
  destruct (Z.eq_dec c 0) as [->|Hc0].
  - change (fleb (F32.of_int 0) (F32.of_int 0)) with true. cbv iota.
    rewrite Z.min_l by lia.
    destruct (lookup_lt_is_Some_2 pal 0%nat) as [s Hs]; [lia|].
    exists s. split; [exact Hs|].
    rewrite (index_lookup_Ok pal 0 s) by (auto; lia). simpl.
    rewrite (stop_exact s) by eauto using byte_rgb_ok. reflexivity.
  - rewrite fraction_of_int by lia.
    rewrite (F32_of_int_exact c) by (unfold channel_ok; lia).
    destruct c as [|m|m]; [lia| |lia].
    rewrite fleb_of_int_pos by lia.
    destruct (Z.ltb_spec (Zpos m) (Z.of_nat (length pal) - 1)) as [Hmid|Hlast].
    + rewrite Z.min_l by lia.
      destruct (lookup_lt_is_Some_2 pal (Z.to_nat (Zpos m))) as [c1 Hc1]; [lia|].
      destruct (lookup_lt_is_Some_2 pal (S (Z.to_nat (Zpos m)))) as [c2 Hc2]; [lia|].
      exists c1. split; [exact Hc1|].
      rewrite (index_lookup_Ok pal (Zpos m) c1) by (auto; lia). simpl.
      rewrite (index_lookup_Ok pal (Zpos m + 1) c2); [|lia|].
      * simpl.
        destruct (Hbyte _ _ Hc1) as (HR1 & HG1 & HB1).
        destruct (byte_rgb_ok _ (Hbyte _ _ Hc2)) as (HR2 & HG2 & HB2).
        rewrite !lerp_zero by assumption. reflexivity.
      * replace (Z.to_nat (Zpos m + 1)) with (S (Z.to_nat (Zpos m))) by lia.
        exact Hc2.
    + rewrite Z.min_r by lia.
      destruct (lookup_lt_is_Some_2 pal (Z.to_nat (Z.of_nat (length pal) - 1)))
        as [s Hs]; [lia|].
      exists s. split; [exact Hs|].
      rewrite (index_lookup_Ok pal (Z.of_nat (length pal) - 1) s) by (auto; lia).
      simpl. rewrite (stop_exact s) by eauto using byte_rgb_ok. reflexivity.
Qed.

(** X11.  On a palette of two or more byte stops a whole colour index [c]
    selects a stop without any rounding: [getRGB] returns stop [c] itself
    when [c] is below the last index, and the last stop from there on. *)
Theorem getRGB_whole_index (c : Z) :
  Forall byte_rgb pal → 2 ≤ nColours pal → 0 ≤ c < 2 ^ 24 →
  ∃ s, pal !! Z.to_nat (Z.min c (nColours pal - 1)) = Some s ∧
       getRGB pal (F32.of_int c) = Ok (rgb_R s, rgb_G s, rgb_B s).
Proof. exact (getRGB_at_stop c). Qed.

End WholeIndex.

Lemma getRGB_whole_index_witness :
  getRGB Scenario.palette (F32.of_int 1) = Ok (0, 255, 0) ∧
  getRGB Scenario.palette (F32.of_int 7) = Ok (0, 0, 255).
Proof.
  assert (Hpal : Forall byte_rgb Scenario.palette).
  { apply (Forall_by_test _
      (λ s, (0 <=? rgb_R s) && (rgb_R s <=? 255) && (0 <=? rgb_G s) &&
            (rgb_G s <=? 255) && (0 <=? rgb_B s) && (rgb_B s <=? 255))).
    - intros s. unfold byte_rgb, byte_ok.
      rewrite !andb_true_iff, !Z.leb_le. tauto.
    - vm_compute. reflexivity. }
  split.
  - destruct (getRGB_whole_index Scenario.palette 1 Hpal) as (s & Hs & ->);
      [vm_compute; intros [=] | vm_compute; split; [intros [=] | reflexivity] |].
    vm_compute in Hs. injection Hs as <-. reflexivity.
  - destruct (getRGB_whole_index Scenario.palette 7 Hpal) as (s & Hs & ->);
      [vm_compute; intros [=] | vm_compute; split; [intros [=] | reflexivity] |].
    vm_compute in Hs. injection Hs as <-. reflexivity.
Defined.

(** *** The colour of a beat *)

(** A source that is not too old after the aging stays in the pool. *)
Lemma diffuseSources_keeps_young l s :
  s ∈ l → too_old (age_source s) = false → age_source s ∈ diffuseSources l.
Proof.
  intros Hs Hold. rewrite diffuseSources_filter.
  destruct (decide (2 < length l)%nat).
  - apply list_elem_of_filter. split; [exact Hold|].
    apply list_elem_of_fmap_2, Hs.
  - apply list_elem_of_fmap_2, Hs.
Qed.

Lemma int_div_Ok a b c : int_div a b = Ok c → b ≠ 0 ∧ c = a ÷ b.
Proof.
  unfold int_div. destruct (Z.eqb_spec b 0); [intros [=]|].
  destruct (int_range (a ÷ b)); intros [=]. auto.
Qed.

Section BeatColour.
Variable pal : list RGB_t.
Variable lay : list Panel.
Variable RGBtoHSV : RGB_t → HSV_t.
Variable HSVtoRGB : HSV_t → RGB_t.

(** X12.  A beat on a free panel leaves a source there whose colour is a
    stop of the palette, unscaled.  The stop is picked by the average
    [avg] of the strongest bins since the last beat: stop
    [avg * nColours / 8], and the last stop once that index passes the
    end of the palette, which every average of 8 or more does.  The
    source is still in the pool after the aging of the same tick.  (The
    palette holds two or more byte stops; the accumulators are in the
    range that ticks keep them in.) *)
Theorem getPluginFrame_beat_colour a st frames st' p :
  Forall byte_rgb pal →
  2 ≤ nColours pal ≤ 2 ^ 19 →
  0 ≤ n st → 0 ≤ maxBinIndexSum st ≤ 31 * n st →
  getIsBeat a = true →
  index lay (r st) = Ok p →
  Forall (λ s, same_position (centroid_x p) (centroid_y p) s = false)
    (evict_if_full (sources st)) →
  getPluginFrame pal lay RGBtoHSV HSVtoRGB a st = Ok (frames, st') →
  ∃ mi avg stop s,
    strongest_bin (getFftBins a) (seqZ 0 N_FFT_BINS) 0 0 = Ok mi ∧
    avg = (maxBinIndexSum st + mi) / (n st + 1) ∧
    0 ≤ avg < N_FFT_BINS ∧
    pal !! Z.to_nat (Z.min (avg * nColours pal / 8) (nColours pal - 1))
      = Some stop ∧
    (8 ≤ avg → Z.min (avg * nColours pal / 8) (nColours pal - 1)
               = nColours pal - 1) ∧
    s ∈ sources st' ∧
    x s = centroid_x p ∧ y s = centroid_y p ∧
    R s = rgb_R stop ∧ G s = rgb_G stop ∧ B s = rgb_B stop.
Proof.
  intros Hpal Hn Hn0 Hsum Hbeat Hp Hfree H.
  apply getPluginFrame_Ok_inv in H
    as (mi & sum & n1 & st1 & Hmi & Hs & Hn1 & Hcase & _ & ->).
  pose proof (strongest_bin_range _ _ Hmi) as Hrange. unfold N_FFT_BINS in *.
  apply int_add_Ok in Hs as [-> _]. apply int_add_Ok in Hn1 as [-> _].
  destruct Hcase as [(_ & avg & Havg & Hadd) | [(Hb & _) | (Hb & _)]];
    [|congruence..].
  apply int_div_Ok in Havg as [_ ->].
  rewrite (Z.quot_div_nonneg (maxBinIndexSum st + mi) (n st + 1)) in Hadd by lia.
  set (avg := (maxBinIndexSum st + mi) / (n st + 1)) in *.
  assert (Havg : 0 ≤ avg < 32).
  { split; [apply Z.div_pos; lia | apply Z.div_lt_upper_bound; lia]. }
  change (32 `quot` 4) with 8 in Hadd.
  assert (Hnc : 0 < nColours pal) by lia.
  assert (Hc : 0 ≤ avg * nColours pal / 8 < 2 ^ 24).
  { split; [apply Z.div_pos; nia|].
    apply Z.div_lt_upper_bound; [lia|].
    assert (2 ^ 19 * 32 ≤ 8 * 2 ^ 24) by (vm_compute; intros [=]). nia. }
  rewrite Z.quot_div_nonneg in Hadd by nia.
  destruct (getRGB_at_stop pal _ Hpal (proj1 Hn) Hc) as (stop & Hstop & Hrgb).
  match type of Hadd with
  | addSource _ _ _ _ _ _ _ ?s0 = _ =>
      rewrite (addSource_resolved pal lay _ _ _ _ _ s0 p _ _ _ Hp Hrgb) in Hadd
  end.
  cbv zeta in Hadd. simpl sources in Hadd.
  rewrite (proj2 (merge_loop_None _ _ _ _ _) Hfree) in Hadd.
  injection Hadd as <-. simpl sources.
  set (l := evict_if_full (sources st)).
  set (k := insert_index (F32.of_int 1) l (length l)).
  destruct (Forall_lookup_1 _ _ _ _ Hpal Hstop) as (HR & HG & HB).
  exists mi, avg, stop. eexists (age_source _).
  split; [exact Hmi|]. split; [reflexivity|]. split; [exact Havg|].
  split; [exact Hstop|]. split.
  { intros H8. apply Z.min_r.
    assert (nColours pal ≤ avg * nColours pal / 8)
      by (apply Z.div_le_lower_bound; nia).
    lia. }
  split.
  { apply diffuseSources_keeps_young.
    - apply elem_of_app. right. apply list_elem_of_here.
    - vm_compute. reflexivity. }
  simpl. rewrite !scale_one by assumption. repeat split.
Qed.

End BeatColour.

(** *** Magnitudes *)

Lemma shr_1_value mrs : 0 ≤ shr_m mrs → shr_m (shr_1 mrs) = shr_m mrs / 2.
Proof.
  destruct mrs as [m r0 s0]. destruct m as [|p|p]; simpl; [reflexivity| |lia].
  intros _. destruct p as [p|p|]; simpl.
  - apply (Z.div_unique (Zpos p~1) 2 (Zpos p) 1); lia.
  - apply (Z.div_unique (Zpos p~0) 2 (Zpos p) 0); lia.
  - reflexivity.
Qed.

Lemma iter_shr_1_value p : ∀ mrs,
  0 ≤ shr_m mrs →
  shr_m (SpecFloat.iter_pos (A:=shr_record) shr_1 p mrs) = shr_m mrs / 2 ^ Zpos p.
Proof.
  induction p as [p IH|p IH|]; intros mrs H; simpl SpecFloat.iter_pos.
  - rewrite IH by (apply iter_shr_1_nonneg, shr_1_nonneg, H).
    rewrite IH by (apply shr_1_nonneg, H).
    rewrite shr_1_value by exact H.
    assert (0 < 2 ^ Zpos p) by (apply Z.pow_pos_nonneg; lia).
    rewrite !Z.div_div by lia.
    f_equal. replace (Zpos p~1) with (1 + Zpos p + Zpos p) by lia.
    rewrite !Z.pow_add_r by lia. lia.
  - rewrite IH by (apply iter_shr_1_nonneg, H).
    rewrite IH by exact H.
    assert (0 < 2 ^ Zpos p) by (apply Z.pow_pos_nonneg; lia).
    rewrite Z.div_div by lia.
    f_equal. replace (Zpos p~0) with (Zpos p + Zpos p) by lia.
    rewrite Z.pow_add_r by lia. reflexivity.
  - rewrite shr_1_value by exact H. reflexivity.
Qed.

(** The first step of a rounding: the exponent goes up to the one of the
    format and the mantissa loses the bits below it. *)
Lemma shr_fexp_value prec emax m e l :
  0 ≤ m →
  ∃ mrs' e', shr_fexp prec emax m e l = (mrs', e') ∧
    e' = Z.max e (fexp prec emax (Zdigits2 m + e)) ∧
    shr_m mrs' = m / 2 ^ (e' - e).
Proof.
  intros Hm. unfold shr_fexp, shr.
  assert (H0 : shr_m (shr_record_of_loc m l) = m) by (destruct l as [|[]]; reflexivity).
  destruct (fexp prec emax (Zdigits2 m + e) - e) as [|p|p] eqn:Hn.
  - eexists _, _. split; [reflexivity|]. split; [lia|].
    rewrite Z.sub_diag, Z.div_1_r. exact H0.
  - eexists _, _. split; [reflexivity|]. split; [lia|].
    rewrite iter_shr_1_value by (rewrite H0; exact Hm).
    rewrite H0. f_equal. f_equal. lia.
  - eexists _, _. split; [reflexivity|]. split; [lia|].
    rewrite Z.sub_diag, Z.div_1_r. exact H0.
Qed.

Lemma Zdigits2_upper m d : 0 ≤ m → 0 ≤ d → m < 2 ^ d → Zdigits2 m ≤ d.
Proof.
  intros Hm Hd H. destruct m as [|p|p]; simpl; [lia| |lia].
  apply digits2_pos_upper; assumption.
Qed.

Lemma round_nearest_even_le m l : round_nearest_even m l ≤ m + 1.
Proof.
  destruct l as [|[]]; simpl; try lia. destruct (Z.even m); lia.
Qed.

Lemma shifted_below m k e e' :
  0 ≤ m < 2 ^ (k - e) → e ≤ e' ≤ k → 0 ≤ m / 2 ^ (e' - e) < 2 ^ (k - e').
Proof.
  intros Hm He.
  assert (0 < 2 ^ (e' - e)) by (apply Z.pow_pos_nonneg; lia).
  split; [apply Z.div_pos; lia|].
  apply Z.div_lt_upper_bound; [lia|].
  rewrite <- Z.pow_add_r by lia.
  replace (e' - e + (k - e')) with (k - e) by lia. lia.
Qed.

(** A rounding raises a magnitude below [2^k] to [2^k] at most, and a
    magnitude in the range of the format stays finite. *)
Lemma binary_round_aux_below prec emax s m e l k :
  0 < prec → 3 ≤ 2 * emax → emin prec emax ≤ k → k + 1 ≤ emax →
  e ≤ k → 0 ≤ m < 2 ^ (k - e) → e ≤ emax - prec →
  below (k + 1) (binary_round_aux prec emax s m e l).
Proof.
  intros Hprec Hemax Hemin Hk He Hm Hee. unfold binary_round_aux.
  destruct (shr_fexp_value prec emax m e l (proj1 Hm))
    as (mrs' & e' & -> & He' & Hm').
  pose proof (Zdigits2_upper m (k - e) (proj1 Hm) ltac:(lia) (proj2 Hm)) as Hd.
  unfold fexp, emin in *.
  assert (He'k : e ≤ e' ≤ k) by lia.
  assert (He'e : e' ≤ emax - prec) by lia.
  pose proof (shifted_below m k e e' Hm He'k) as Hb. rewrite <- Hm' in Hb.
  set (mr := round_nearest_even (shr_m mrs') (loc_of_shr_record mrs')).
  assert (Hmr : 0 ≤ mr < 2 ^ (k + 1 - e')).
  { split; [apply round_nearest_even_nonneg; lia|].
    pose proof (round_nearest_even_le (shr_m mrs') (loc_of_shr_record mrs')).
    replace (k + 1 - e') with (Z.succ (k - e')) by lia.
    rewrite Z.pow_succ_r by lia. fold mr in H. lia. }
  destruct (shr_fexp_value prec emax mr e' loc_Exact (proj1 Hmr))
    as (mrs'' & e'' & -> & He'' & Hm'').
  pose proof (Zdigits2_upper mr (k + 1 - e') (proj1 Hmr) ltac:(lia) (proj2 Hmr))
    as Hd'.
  unfold fexp, emin in *.
  assert (He''k : e' ≤ e'' ≤ k + 1) by lia.
  assert (He''e : e'' ≤ emax - prec) by lia.
  pose proof (shifted_below mr (k + 1) e' e'' Hmr He''k) as Hb'.
  rewrite <- Hm'' in Hb'.
  destruct (shr_m mrs'') as [|p|p]; [exact I| |lia].
  destruct (Z.leb_spec e'' (emax - prec)); [|lia].
  simpl. split; [lia|]. exact (proj2 Hb').
Qed.

Lemma binary_round_below prec emax s m e k :
  0 < prec → 3 ≤ 2 * emax → emin prec emax ≤ k → k + 1 ≤ emax →
  e ≤ k → Zpos m < 2 ^ (k - e) →
  below (k + 1) (binary_round prec emax s m e).
Proof.
  intros Hprec Hemax Hemin Hk He Hm. unfold binary_round, shl_align.
  pose proof (digits2_pos_upper m (k - e) ltac:(lia) Hm) as Hd.
  unfold fexp, emin in *.
  destruct (Z.max (Zpos (digits2_pos m) + e - prec) (3 - emax - prec) - e)
    as [|d|d] eqn:Hf.
  - apply binary_round_aux_below; unfold emin; lia.
  - apply binary_round_aux_below; unfold emin; lia.
  - apply binary_round_aux_below; unfold emin; try lia.
    rewrite Zpos_iter_xO. split; [lia|].
    replace (k - Z.max (Zpos (digits2_pos m) + e - prec) (3 - emax - prec))
      with (k - e + Zpos d) by lia.
    rewrite Z.pow_add_r by lia.
    assert (0 < 2 ^ Zpos d) by (apply Z.pow_pos_nonneg; lia). nia.
Qed.

Lemma below_le k k' f : k ≤ k' → below k f → below k' f.
Proof.
  intros Hk. destruct f as [| | |s m e]; simpl; auto. intros [He Hm].
  split; [lia|].
  assert (2 ^ (k - e) ≤ 2 ^ (k' - e)) by (apply Z.pow_le_mono_r; lia). lia.
Qed.

Lemma to_float_below k f : -149 ≤ k < 128 → below k f → below (k + 1) (to_float f).
Proof.
  intros Hk. destruct f as [| | |s m e]; simpl; auto. intros [He Hm].
  apply binary_round_below; unfold emin, F32.prec, F32.emax; lia.
Qed.

Lemma to_float_signed s f : signed s f → signed s (to_float f).
Proof.
  destruct f; simpl; auto. intros ->. apply binary_round_signed.
Qed.

Lemma F64_of_int_below z k :
  0 ≤ k < 1024 → 0 ≤ z < 2 ^ k →
  signed false (F64.of_int z) ∧ below (k + 1) (F64.of_int z).
Proof.
  intros Hk Hz. destruct z as [|m|m]; [simpl; auto| |lia].
  unfold F64.of_int, binary_normalize. split; [apply binary_round_signed|].
  apply binary_round_below; unfold emin, F64.prec, F64.emax; try lia.
  rewrite Z.sub_0_r. lia.
Qed.

Lemma F32_of_int_below z k :
  0 ≤ k < 128 → 0 ≤ z < 2 ^ k →
  signed false (F32.of_int z) ∧ below (k + 1) (F32.of_int z).
Proof.
  intros Hk Hz. destruct z as [|m|m]; [simpl; auto| |lia].
  unfold F32.of_int, binary_normalize. split; [apply binary_round_signed|].
  apply binary_round_below; unfold emin, F32.prec, F32.emax; try lia.
  rewrite Z.sub_0_r. lia.
Qed.

(** The product of two numbers that are not negative. *)
Lemma F64_mul_below a b ka kb :
  signed false a → signed false b → below ka a → below kb b →
  -1074 ≤ ka + kb ≤ 971 →
  signed false (F64.mul a b) ∧ below (ka + kb + 1) (F64.mul a b).
Proof.
  intros Ha Hb Hka Hkb Hk.
  destruct a as [sa| | |sa ma ea], b as [sb| | |sb mb eb]; simpl in *;
    try tauto; subst; simpl; try (split; [reflexivity | exact I]).
  destruct Hka as [Hea Hma], Hkb as [Heb Hmb].
  split; [apply binary_round_aux_signed; lia|].
  apply binary_round_aux_below; unfold emin, F64.prec, F64.emax; try lia.
  split; [lia|].
  replace (ka + kb - (ea + eb)) with ((ka - ea) + (kb - eb)) by lia.
  rewrite Z.pow_add_r, Pos2Z.inj_mul by lia.
  apply Z.mul_lt_mono_nonneg; lia.
Qed.

(** A number that is not negative and below [2^31] converts to an [int]
    that is not negative. *)
Lemma to_int_below f : signed false f → below 31 f → 0 ≤ to_int f.
Proof.
  destruct f as [s| | |s m e]; simpl; try tauto.
  - intros _ _. vm_compute. intros [=].
  - intros -> [He Hm].
    destruct (to_int_floor m e _ eq_refl) as [H0 Hidx].
    rewrite Hidx; [exact H0|].
    unfold INT_MAX. simpl cond_Zopp.
    assert (H31 : 2 ^ 31 = 2147483648) by reflexivity.
    destruct e as [|p|p].
    + rewrite Z.sub_0_r in Hm. lia.
    + assert (0 < 2 ^ Zpos p) by (apply Z.pow_pos_nonneg; lia).
      assert (2 ^ (31 - Zpos p) * 2 ^ Zpos p = 2 ^ 31).
      { rewrite <- Z.pow_add_r by lia. f_equal. lia. }
      nia.
    + assert (0 < 2 ^ Zpos p) by (apply Z.pow_pos_nonneg; lia).
      assert (Zpos m / 2 ^ Zpos p < 2 ^ 31); [|lia].
      apply Z.div_lt_upper_bound; [lia|].
      rewrite <- Z.pow_add_r by lia.
      replace (Zpos p + 31) with (31 - Zneg p) by lia. exact Hm.
Qed.

Section InRange.
Variable pal : list RGB_t.

Lemma index_in_range {A} (a : list A) i :
  0 ≤ i < Z.of_nat (length a) → is_Ok (index a i).
Proof.
  intros Hi. destruct (lookup_lt_is_Some_2 a (Z.to_nat i)) as [v Hv]; [lia|].
  rewrite (index_lookup_Ok a i v) by (auto; lia). exact I.
Qed.

Lemma is_Ok_bind {A B} (m : result A) (k : A → result B) :
  is_Ok m → (∀ a, is_Ok (k a)) → is_Ok (m ≫= k).
Proof. destruct m; simpl; [auto | tauto]. Qed.

(** [getRGB] stays inside the palette for every index that is not
    negative and below [2^31]. *)
Lemma getRGB_in_range colour :
  signed false colour → below 31 colour → is_Ok (getRGB pal colour).
Proof.
  intros Hs Hb. pose proof (to_int_below colour Hs Hb) as Hidx.
  unfold getRGB. cbv zeta.
  destruct (Z.eqb_spec (nColours pal) 0); [exact I|].
  destruct (Z.eqb_spec (nColours pal) 1).
  { apply is_Ok_bind; [|intros; exact I].
    apply index_in_range. unfold nColours in *. lia. }
  assert (0 ≤ nColours pal) by (unfold nColours; lia).
  apply is_Ok_bind; [|intros [[? ?] ?]; exact I].
  destruct (fleb colour (F32.of_int 0)).
  - apply is_Ok_bind; [|intros; exact I].
    apply index_in_range. unfold nColours in *. lia.
  - destruct (Z.ltb_spec (to_int colour) (nColours pal - 1)).
    + apply is_Ok_bind; [apply index_in_range; unfold nColours in *; lia|].
      intros c1. apply is_Ok_bind; [|intros; exact I].
      apply index_in_range. unfold nColours in *. lia.
    + apply is_Ok_bind; [|intros; exact I].
      apply index_in_range. unfold nColours in *. lia.
Qed.

End InRange.

(** *** A tick that returns *)

Lemma is_Ok_bind_with {A B} (m : result A) (k : A → result B) :
  is_Ok m → (∀ a, m = Ok a → is_Ok (k a)) → is_Ok (m ≫= k).
Proof. destruct m; simpl; [auto | tauto]. Qed.

Lemma int_add_in_range a b :
  INT_MIN ≤ a + b ≤ INT_MAX → int_add a b = Ok (a + b).
Proof.
  intros H. unfold int_add, int_range.
  destruct (Z.leb_spec INT_MIN (a + b)), (Z.leb_spec (a + b) INT_MAX);
    simpl; [reflexivity | lia..].
Qed.

Lemma int_div_in_range a b :
  b ≠ 0 → INT_MIN ≤ a ÷ b ≤ INT_MAX → int_div a b = Ok (a ÷ b).
Proof.
  intros Hb H. unfold int_div, int_range.
  destruct (Z.eqb_spec b 0); [contradiction|].
  destruct (Z.leb_spec INT_MIN (a ÷ b)), (Z.leb_spec (a ÷ b) INT_MAX);
    simpl; [reflexivity | lia..].
Qed.

Section Returns.
Variable pal : list RGB_t.
Variable lay : list Panel.
Variable RGBtoHSV : RGB_t → HSV_t.
Variable HSVtoRGB : HSV_t → RGB_t.

(** A call fails only on its two reads: the panel and the palette. *)
Lemma addSource_in_range colour i sp e u st :
  0 ≤ r st < nPanels lay → is_Ok (getRGB pal colour) →
  is_Ok (addSource pal lay colour i sp e u st).
Proof.
  intros Hr Hrgb.
  destruct (is_Ok_inv _ (index_in_range lay (r st) Hr)) as [p Hp].
  destruct (is_Ok_inv _ Hrgb) as [[[cR cG] cB] Hc].
  rewrite (addSource_resolved pal lay _ _ _ _ _ _ p _ _ _ Hp Hc). cbv zeta.
  destruct (merge_loop _ _ _ _ _); exact I.
Qed.

(** The colour index of an onset, for a draw in [0, 1). *)
Lemma onset_colour_in_range u :
  nColours pal ≤ 2 ^ 19 → signed false u → below 0 u →
  is_Ok (getRGB pal (to_float (F64.mul u (F64.of_int (nColours pal - 1))))).
Proof.
  intros Hn Hs Hb.
  destruct (Z.eq_dec (nColours pal) 0) as [H0|H0].
  { unfold getRGB. rewrite H0. exact I. }
  assert (Hc : 0 ≤ nColours pal - 1 < 2 ^ 19) by (unfold nColours in *; lia).
  destruct (F64_of_int_below _ 19 ltac:(lia) Hc) as [HsN HbN].
  destruct (F64_mul_below _ _ 0 (19 + 1) Hs HsN Hb HbN ltac:(lia)) as [Hsm Hbm].
  apply getRGB_in_range; [apply to_float_signed, Hsm|].
  apply (below_le (0 + (19 + 1) + 1 + 1)); [lia|].
  apply to_float_below; [lia | exact Hbm].
Qed.

(** X13.  A tick returns: it reads no bin, panel or palette stop outside
    its array, overflows no counter and divides by no zero, whenever the
    sound module hands over at least 32 bins, the counters are in the range
    that ticks keep them in and far from the end of [int], the panel index
    [r] lies inside the layout, the palette has at most [2^19] stops and
    the draw for the onset colour lies in [0, 1). *)
Theorem getPluginFrame_returns a st :
  N_FFT_BINS ≤ Z.of_nat (length (getFftBins a)) →
  0 ≤ n st → 0 ≤ maxBinIndexSum st ≤ 31 * n st →
  31 * (n st + 1) ≤ INT_MAX →
  0 ≤ r st < nPanels lay →
  nColours pal ≤ 2 ^ 19 →
  signed false (drand48_colour a) → below 0 (drand48_colour a) →
  is_Ok (getPluginFrame pal lay RGBtoHSV HSVtoRGB a st).
Proof.
  intros Hbins Hn Hsum Hmax Hr Hpal Hs Hb.
  unfold getPluginFrame, N_FFT_BINS, INT_MAX in *.
  apply is_Ok_bind_with.
  { apply (strongest_bin_Ok (getFftBins a) 32 0 0 0); lia. }
  intros mi Hmi. apply strongest_bin_range in Hmi. unfold N_FFT_BINS in Hmi.
  rewrite (int_add_in_range (maxBinIndexSum st) mi)
    by (unfold INT_MIN, INT_MAX; lia).
  rewrite (int_add_in_range (n st) 1) by (unfold INT_MIN, INT_MAX; lia).
  cbn [mbind result_bind].
  apply is_Ok_bind_with; [|intros; exact I].
  destruct (getIsBeat a).
  - set (avg := (maxBinIndexSum st + mi) ÷ (n st + 1)).
    assert (Havg : 0 ≤ avg < 32).
    { unfold avg. rewrite Z.quot_div_nonneg by lia.
      split; [apply Z.div_pos; lia | apply Z.div_lt_upper_bound; lia]. }
    rewrite int_div_in_range by (unfold INT_MIN, INT_MAX; fold avg; lia).
    fold avg. cbn [mbind result_bind].
    apply addSource_in_range; [exact Hr|].
    change (32 `quot` 4) with 8.
    assert (H0 : 0 ≤ nColours pal) by (unfold nColours; lia).
    rewrite Z.quot_div_nonneg by nia.
    assert (Hc : 0 ≤ avg * nColours pal / 8 < 2 ^ 24).
    { split; [apply Z.div_pos; nia|].
      apply Z.div_lt_upper_bound; [lia|].
      assert (2 ^ 19 * 32 ≤ 8 * 2 ^ 24) by (vm_compute; intros [=]). nia. }
    destruct (F32_of_int_below _ 24 ltac:(lia) Hc) as [Hsc Hbc].
    apply getRGB_in_range; [exact Hsc|].
    apply (below_le (24 + 1)); [lia | exact Hbc].
  - destruct (getIsOnset a); [|exact I].
    apply addSource_in_range; [exact Hr|].
    apply onset_colour_in_range; assumption.
Qed.

End Returns.

Lemma getPluginFrame_returns_witness :
  is_Ok (getPluginFrame Scenario.palette Scenario.layout
           Scenario.RGBtoHSV Scenario.HSVtoRGB
           (Scenario.loud_tick 9 false true 0) initial_state).
Proof.
  apply getPluginFrame_returns.
  - vm_compute; intros [=].
  - vm_compute; intros [=].
  - vm_compute; split; intros [=].
  - vm_compute; intros [=].
  - vm_compute; split; [intros [=] | reflexivity].
  - vm_compute; intros [=].
  - vm_compute; reflexivity.
  - vm_compute; split; [intros [=] | reflexivity].
Defined.

Lemma getPluginFrame_beat_colour_witness :
  ∃ frames st' s,
    getPluginFrame Scenario.palette Scenario.layout
      Scenario.RGBtoHSV Scenario.HSVtoRGB
      (Scenario.loud_tick 9 true false 0) initial_state = Ok (frames, st') ∧
    s ∈ sources st' ∧ (R s, G s, B s) = (0, 0, 255).
Proof.
  assert (H : ∃ res,
    getPluginFrame Scenario.palette Scenario.layout
      Scenario.RGBtoHSV Scenario.HSVtoRGB
      (Scenario.loud_tick 9 true false 0) initial_state = Ok res)
    by (eexists; vm_compute; reflexivity).
  destruct H as [[frames st'] H].
  assert (Hpal : Forall byte_rgb Scenario.palette).
  { apply (Forall_by_test _
      (λ s, (0 <=? rgb_R s) && (rgb_R s <=? 255) && (0 <=? rgb_G s) &&
            (rgb_G s <=? 255) && (0 <=? rgb_B s) && (rgb_B s <=? 255))).
    - intros s. unfold byte_rgb, byte_ok.
      rewrite !andb_true_iff, !Z.leb_le. tauto.
    - vm_compute. reflexivity. }
  destruct (getPluginFrame_beat_colour Scenario.palette Scenario.layout
              Scenario.RGBtoHSV Scenario.HSVtoRGB
              (Scenario.loud_tick 9 true false 0) initial_state frames st'
              (Scenario.panel 0) Hpal)
    as (mi & avg & stop & s & Hmi & -> & _ & Hstop & _ & Hs & _ & _ & HR & HG & HB).
  - vm_compute; split; intros [=].
  - vm_compute; intros [=].
  - vm_compute; split; intros [=].
  - reflexivity.
  - vm_compute; reflexivity.
  - constructor.
  - exact H.
  - vm_compute in Hmi. injection Hmi as <-.
    vm_compute in Hstop. injection Hstop as <-.
    exists frames, st', s. split; [exact H|]. split; [exact Hs|].
    rewrite HR, HG, HB. reflexivity.
Defined.

(** *** The distance *)

Lemma SFsub_signed prec emax a b :
  is_finite a → is_finite b → ∃ s, signed s (SFsub prec emax a b).
Proof.
  destruct a as [sa| | |sa ma ea], b as [sb| | |sb mb eb]; simpl; try tauto;
    intros _ _.
  - destruct sa, sb; simpl; eauto.
  - eauto.
  - eauto.
  - destruct (cond_Zopp sa _ - cond_Zopp sb _) as [|p|p]; simpl.
    + exists false. reflexivity.
    + exists false. apply binary_round_signed.
    + exists true. apply binary_round_signed.
Qed.

Lemma SFmul_square prec emax d s :
  signed s d → signed false (SFmul prec emax d d).
Proof.
  destruct d as [sd|sd| |sd m e]; simpl; try tauto; intros _.
  - destruct sd; reflexivity.
  - destruct sd; reflexivity.
  - replace (xorb sd sd) with false by (destruct sd; reflexivity).
    apply binary_round_aux_signed. lia.
Qed.

Lemma SFadd_signed prec emax a b :
  signed false a → signed false b → signed false (SFadd prec emax a b).
Proof.
  destruct a as [sa|sa| |sa ma ea], b as [sb|sb| |sb mb eb]; simpl; try tauto;
    intros -> ->; try reflexivity.
  apply binary_round_signed.
Qed.

Lemma SFsqrt_signed prec emax a :
  signed false a → signed false (SFsqrt prec emax a).
Proof.
  destruct a as [sa|sa| |sa m e]; simpl; try tauto; intros ->; try reflexivity.
  unfold SFsqrt_core_binary.
  set (e' := Z.min _ _). set (m' := match e - 2 * e' with 0 => _ | _ => _ end).
  assert (Hm' : 0 ≤ m').
  { unfold m'. destruct (e - 2 * e'); [lia | | lia].
    apply Z.shiftl_nonneg. lia. }
  pose proof (Z.sqrtrem_spec m' Hm') as Hq.
  destruct (Z.sqrtrem m') as [q r0].
  apply binary_round_aux_signed. lia.
Qed.

(** X14.  Between two points whose coordinates are finite numbers the
    distance is [+0], a positive number or, on overflow, [+infinity]: never
    a NaN, a negative number or [-0].  From a point to itself it is
    exactly [+0]. *)
Theorem distance_not_negative x1 y1 x2 y2 :
  is_finite x1 → is_finite y1 → is_finite x2 → is_finite y2 →
  signed false (distance x1 y1 x2 y2) ∧
  distance x1 y1 x1 y1 = S754_zero false.
Proof.
  intros Hx1 Hy1 Hx2 Hy2. split.
  - unfold distance. cbv zeta.
    destruct (SFsub_signed F32.prec F32.emax x2 x1 Hx2 Hx1) as [sx Hdx].
    destruct (SFsub_signed F32.prec F32.emax y2 y1 Hy2 Hy1) as [sy Hdy].
    apply SFsqrt_signed, SFadd_signed; eapply SFmul_square; eassumption.
  - assert (Hself : ∀ v, is_finite v → F32.sub v v = S754_zero false).
    { intros [s| | |s m e]; simpl; try tauto; intros _.
      - destruct s; reflexivity.
      - rewrite Z.sub_diag. reflexivity. }
    unfold distance. cbv zeta. rewrite !Hself by assumption. reflexivity.
Qed.

Lemma distance_not_negative_witness :
  signed false (distance (F32.of_int 0) (F32.of_int 0) (F32.of_int 30) (F32.of_int 40)) ∧
  distance (F32.of_int 0) (F32.of_int 0) (F32.of_int 30) (F32.of_int 40)
  = F32.of_int 50.
Proof.
  split; [|vm_compute; reflexivity].
  apply (distance_not_negative (F32.of_int 0) (F32.of_int 0)
           (F32.of_int 30) (F32.of_int 40)); vm_compute; exact I.
Defined.
